(** * Random-walk Metropolis-Hastings sampler of [exercise_random_walk_MCMC]

    A shallow embedding of the notebook's code cells: the forward model
    [increasing_sinus_model], the likelihood [fun_LL], the proposal
    [w_star = w_n[n,:] + R . mv_norm] and the MCMC loop that fills the
    preallocated array [w_n].

    The notebook computes with numpy's float64, and so does the embedding:
    the scalars are IEEE 754 binary64 numbers ([spec_float] with precision 53
    and [emax] 1024), with correctly rounded [+], [-], [*], [/] and [sqrt].
    The code is written over an interface of the arithmetic it uses: the
    operations of [Arith] are those of binary64; [np.exp], [np.sin] and
    [np.sum], whose results numpy takes from the C library and from its own
    blocked summation, are operations of [Elementary] that stay parameters.

    What Python raises ([IndexError], [ValueError], [LinAlgError]) is [None]
    in the option monad; numpy float division never raises (it warns and
    returns NaN or an infinity), so it is a total operation of the
    arithmetic.  The state of Python's random generator is passed explicitly
    through the draws. *)

From Stdlib Require Import ZArith Lia Bool.
From Stdlib Require Import Floats.SpecFloat.
From stdpp Require Import base option list.

Set Default Proof Using "Type".

(** ** The arithmetic of the notebook *)

(** Scalar operations of Python/numpy floats used by the code. [of_int] is
    the conversion of a Python [int]; [fltb x y] is the test [x < y];
    [np_isfinite x] tells a number from an infinity or NaN. *)
Class Arith (F : Type) := {
  of_int : Z → F;
  fadd : F → F → F;
  fsub : F → F → F;
  fmul : F → F → F;
  fdiv : F → F → F;
  fltb : F → F → bool;
  np_sqrt : F → F;
  np_isfinite : F → bool;
}.

(** [np.exp], [np.sin], [np.pi] and [np.sum] of a one-dimensional array.
    numpy adds the entries of an array in blocks of partial sums; the order
    is not fixed here, [np_sum] is whatever numpy's summation returns. *)
Class Elementary (F : Type) `{Arith F} := {
  np_exp : F → F;
  np_sin : F → F;
  np_pi : F;
  np_sum : list F → F;
}.

(** A decimal literal [n / d] with [d] a power of ten, as [0.05 = 5/100].
    Both operands are exact, so the correctly rounded quotient is the float
    the literal denotes. *)
Definition lit `{Arith F} (n d : Z) : F := fdiv (of_int n) (of_int d).

(** *** IEEE 754 binary64 *)

Module B64.
Definition prec : Z := 53.
Definition emax : Z := 1024.

Definition float := spec_float.

Definition from_int (z : Z) : float := binary_normalize prec emax z 0 false.
Definition add : float → float → float := SFadd prec emax.
Definition sub : float → float → float := SFsub prec emax.
Definition mul : float → float → float := SFmul prec emax.
Definition div : float → float → float := SFdiv prec emax.
Definition sqrt : float → float := SFsqrt prec emax.
Definition ltb : float → float → bool := SFltb.
Definition leb : float → float → bool := SFleb.

Definition isfinite (x : float) : bool :=
  match x with
  | S754_zero _ | S754_finite _ _ _ => true
  | S754_infinity _ | S754_nan => false
  end.

Definition zero : float := S754_zero false.
Definition one : float := Eval vm_compute in from_int 1.

(** [np.pi], the binary64 number nearest to pi: [0x400921FB54442D18]. *)
Definition pi : float := S754_finite false 7074237752028440 (-51).

(** What [np.exp] can return: NaN, or a value whose sign bit is clear
    ([+0], a positive finite number, [+inf]). *)
Definition exp_range (x : float) : Prop :=
  match x with
  | S754_nan => True
  | S754_zero s | S754_infinity s | S754_finite s _ _ => s = false
  end.

(** A strictly positive value: finite or [+inf]. *)
Definition strictly_positive (x : float) : Prop :=
  match x with
  | S754_infinity false | S754_finite false _ _ => True
  | _ => False
  end.

(** What [random.random()] returns: a float [u] with [0 <= u < 1]. *)
Definition unit_interval (u : float) : Prop :=
  leb zero u = true ∧ ltb u one = true.

(** A likelihood that is zero or not finite. *)
Definition degenerate (x : float) : Prop :=
  match x with
  | S754_finite _ _ _ => False
  | _ => True
  end.

(** A float is well formed when its mantissa and exponent are in the
    canonical range of the format. *)
Definition valid (x : float) : Prop := valid_binary prec emax x = true.

(** The mantissa-exponent pair [(m, e)] stands for a number [m * 2^e >= 1]. *)
Definition ge_one (m e : Z) : Prop := (1 ≤ m ∧ 2 ^ (- e) ≤ m)%Z.
End B64.

#[export] Instance B64_arith : Arith B64.float := {|
  of_int := B64.from_int;
  fadd := B64.add;
  fsub := B64.sub;
  fmul := B64.mul;
  fdiv := B64.div;
  fltb := B64.ltb;
  np_sqrt := B64.sqrt;
  np_isfinite := B64.isfinite;
|}.

(** ** numpy arrays as lists *)

Section Numpy.
Context {F : Type} `{Elementary F}.

(** One- and two-dimensional float arrays. *)
Local Abbreviation vector := (list F).
Local Abbreviation matrix := (list (list F)).

(** An elementwise operation [a op b] on one-dimensional arrays: the shapes
    must agree, or one of the operands has a single entry, which numpy
    broadcasts; otherwise numpy raises [ValueError]. *)
Definition np_binop (op : F → F → F) (a b : vector) : option vector :=
  if decide (length a = length b) then Some (zip_with op a b)
  else match a, b with
       | [x], _ => Some (op x <$> b)
       | _, [y] => Some ((λ x, op x y) <$> a)
       | _, _ => None
       end.

Definition vadd : vector → vector → option vector := np_binop fadd.
Definition vsub : vector → vector → option vector := np_binop fsub.
(** [a ** 2] *)
Definition vsquare (a : vector) : vector := (λ x, fmul x x) <$> a.

(** [np.zeros(n)] and [np.zeros((rows, cols))] *)
Definition np_zeros (n : nat) : vector := replicate n (of_int 0).
Definition np_zeros2 (rows cols : nat) : matrix := replicate rows (np_zeros cols).

(** [np.linspace(start, stop, num)] for [num > 1]: [num] points with step
    [(stop - start) / (num - 1)], the last one set to [stop]. *)
Definition np_linspace (start stop : F) (num : nat) : vector :=
  let step := fdiv (fsub stop start) (of_int (Z.of_nat (num - 1))) in
  <[num - 1 := stop]>
    ((λ i, fadd (fmul (of_int (Z.of_nat i)) step) start) <$> seq 0 num).

(** [np.matmul(R, v)] for a two-dimensional [R] and a one-dimensional [v]:
    the rows of [R] must be as long as [v], or numpy raises [ValueError].
    [np.transpose] of a one-dimensional array is the array itself. *)
Definition dot (a b : vector) : F := foldl fadd (of_int 0) (zip_with fmul a b).
Definition np_matmul (R : matrix) (v : vector) : option vector :=
  if decide (Forall (λ row, length row = length v) R)
  then Some ((λ row, dot row v) <$> R)
  else None.

(** ** The forward model *)

(** [y = w[0]*np.sin(w[1]*x*(np.pi/2)) + w[1]*x] at one point [x]. *)
Definition model_at (w0 w1 x : F) : F :=
  fadd (fmul w0 (np_sin (fmul (fmul w1 x) (fdiv np_pi (of_int 2))))) (fmul w1 x).

(** [increasing_sinus_model(x, w)]; [w[0]] and [w[1]] raise [IndexError]
    on a shorter [w]. *)
Definition increasing_sinus_model (x : vector) (w : vector) : option vector :=
  w0 ← w !! 0%nat;
  w1 ← w !! 1%nat;
  Some (model_at w0 w1 <$> x).

(** ** The likelihood *)

Section Likelihood.
Variable sigma_y : F.
Variables x_data y_noisy : vector.

(** [np.exp(-1/2/sigma_y**2*np.sum((y_noisy - increasing_sinus_model(x_data, w))**2))] *)
Definition fun_LL (w : vector) : option F :=
  y ← increasing_sinus_model x_data w;
  d ← vsub y_noisy y;
  Some (np_exp (fmul (fdiv (fdiv (of_int (-1)) (of_int 2)) (fmul sigma_y sigma_y))
                     (np_sum (vsquare d)))).
End Likelihood.

(** ** The Cholesky factor *)

(** [scipy.linalg.cholesky(a)] with its default [lower=False].  scipy first
    checks its argument: every entry, read or not, must be finite and the
    array must be square ([ValueError] otherwise).  It then runs LAPACK's
    [potrf] on the upper triangle of [a], row by row.  Row [j] of the factor
    [U] has [U[j][j] = sqrt(a[j][j] - sum_k U[k][j]^2)] and, to its right,
    [U[j][i] = (a[j][i] - sum_k U[k][j]*U[k][i]) * (1 / U[j][j])], the row
    being scaled by the reciprocal of the pivot; the sums run over the rows
    [k < j] already computed and the entries to the left are zero.  A pivot
    that is not strictly positive makes scipy raise [LinAlgError]. *)
Definition entry (a : matrix) (i j : nat) : F :=
  default (of_int 0) (row ← a !! i; row !! j).

Definition col_dot (U : matrix) (i j : nat) : F :=
  foldl fadd (of_int 0)
    ((λ row, fmul (default (of_int 0) (row !! i)) (default (of_int 0) (row !! j))) <$> U).

Definition chol_row (a : matrix) (n : nat) (U : matrix) (j : nat) : option vector :=
  let ajj := fsub (entry a j j) (col_dot U j j) in
  if fltb (of_int 0) ajj then
    let ujj := np_sqrt ajj in
    let scale := fdiv (of_int 1) ujj in
    Some ((λ i, if (i <? j)%nat then of_int 0
                else if (i =? j)%nat then ujj
                else fmul (fsub (entry a j i) (col_dot U j i)) scale) <$> seq 0 n)
  else None.

Fixpoint chol_rows (a : matrix) (n : nat) (js : list nat) (U : matrix) : option matrix :=
  match js with
  | [] => Some U
  | j :: js' => row ← chol_row a n U j; chol_rows a n js' (U ++ [row])
  end.

Definition cholesky (a : matrix) : option matrix :=
  if forallb (forallb np_isfinite) a then
    if decide (Forall (λ row, length row = length a) a)
    then chol_rows a (length a) (seq 0 (length a)) []
    else None
  else None.

(** Entry [(i, j)] of the product [R . R^T]. *)
Definition gram (R : matrix) (i j : nat) : F :=
  dot (default [] (R !! i)) (default [] (R !! j)).

(** ** The random source *)

(** Python's [random] module as the code uses it: one generator state,
    advanced by [random.gauss(mu, sigma)] and by [random.random()]. *)
Record RandomSource := {
  rng : Type;
  gauss : F → F → rng → F * rng;
  random : rng → F * rng;
}.

(** ** The Metropolis-Hastings loop *)

(** [dim = 2] *)
Definition dim : nat := 2.

(** [proposal_cov = np.array([[0.05,0.], [0.,0.0001]])] *)
Definition proposal_cov : matrix :=
  [[lit 5 100; of_int 0]; [of_int 0; lit 1 10000]].

(** [w_n[i,:] = v]: the row index must be in range ([IndexError]) and [v]
    must have [dim] entries, or a single one that numpy broadcasts
    ([ValueError] otherwise). *)
Definition set_row (w_n : matrix) (i : nat) (v : vector) : option matrix :=
  if decide (i < length w_n)%nat then
    if decide (length v = dim) then Some (<[i := v]> w_n)
    else match v with
         | [x] => Some (<[i := replicate dim x]> w_n)
         | _ => None
         end
  else None.

Section Sampler.
Variable rs : RandomSource.
Variable sigma_y : F.
Variables x_data y_noisy : vector.

(** [mv_norm = np.zeros(dim); for j in range(dim): mv_norm[j] = random.gauss(0, 1)] *)
Fixpoint draw_normals (k : nat) (g : rng rs) : vector * rng rs :=
  match k with
  | O => ([], g)
  | S k' =>
      let '(z, g1) := gauss rs (of_int 0) (of_int 1) g in
      let '(zs, g2) := draw_normals k' g1 in
      (z :: zs, g2)
  end.

(** [w_star = w_n[n, :] + np.transpose(np.matmul(R, np.transpose(mv_norm)))] *)
Definition proposal (R : matrix) (w_current : vector) (mv_norm : vector) : option vector :=
  step ← np_matmul R mv_norm;
  vadd w_current step.

(** Python's [min(1, r)]: [r] if [r < 1], else [1]. *)
Definition py_min (one r : F) : F := if fltb r one then r else one.

(** Steps 2 to 4 of an iteration, from the two likelihood values on: the
    ratio, the acceptance probability, the uniform draw and the write to
    slot [n+1]. *)
Definition mh_ratio (L_star L_cur : F) : F := fdiv L_star L_cur.
Definition mh_alpha (L_star L_cur : F) : F := py_min (of_int 1) (mh_ratio L_star L_cur).
Definition mh_accepts (L_star L_cur u : F) : bool := fltb u (mh_alpha L_star L_cur).

Definition mh_decide (w_n : matrix) (n : nat) (w_cur w_star : vector)
    (L_star L_cur : F) (g : rng rs) : option (matrix * rng rs) :=
  let r := mh_ratio L_star L_cur in
  let alpha := py_min (of_int 1) r in
  let '(u, g') := random rs g in
  w_n' ← (if fltb u alpha then set_row w_n (S n) w_star
           else set_row w_n (S n) w_cur);
  Some (w_n', g').

(** The body of [for n in range(n_it)]. *)
Definition mh_iteration (R : matrix) (n : nat) (st : matrix * rng rs)
    : option (matrix * rng rs) :=
  let '(w_n, g) := st in
  let '(mv_norm, g1) := draw_normals dim g in
  w_cur ← w_n !! n;
  w_star ← proposal R w_cur mv_norm;
  L_star ← fun_LL sigma_y x_data y_noisy w_star;
  L_cur ← fun_LL sigma_y x_data y_noisy w_cur;
  mh_decide w_n n w_cur w_star L_star L_cur g1.

Fixpoint mh_loop (R : matrix) (ns : list nat) (st : matrix * rng rs)
    : option (matrix * rng rs) :=
  match ns with
  | [] => Some st
  | n :: ns' => st' ← mh_iteration R n st; mh_loop R ns' st'
  end.

(** The cell: allocate [w_n], factor [proposal_cov], store [w_MLE] in row 0
    and loop. *)
Definition mcmc (n_it : nat) (w_MLE : vector) (g : rng rs) : option (matrix * rng rs) :=
  let w_n := np_zeros2 (n_it + 1) dim in
  R ← cholesky proposal_cov;
  w_n ← set_row w_n 0 w_MLE;
  mh_loop R (seq 0 n_it) (w_n, g).

(** The generator after an iteration of the loop, which makes [dim] normal
    draws and then one uniform draw whatever it decides, and after [n]
    iterations. *)
Definition next_generator (g : rng rs) : rng rs :=
  (random rs (draw_normals dim g).2).2.

Definition generator_at (n : nat) (g : rng rs) : rng rs :=
  Nat.iter n next_generator g.
End Sampler.

(** ** Python's generator *)

(** CPython's [random] module (Lib/random.py): the module-level functions
    [random.random] and [random.gauss] are bound methods of one hidden
    generator.  [gauss] makes its variates in pairs from two calls of the same
    [random()] and keeps the second one of a pair in [gauss_next] for its
    next call.  [raw k] is the [k]-th output of the generator's [random()];
    [box_muller u1 u2] is the pair
    [(cos(2 pi u1) * sqrt(-2 log(1 - u2)), sin(2 pi u1) * sqrt(-2 log(1 - u2)))]. *)
Section PyRandom.
Variable raw : nat → F.
Variable box_muller : F → F → F * F.

Record py_state := { consumed : nat; gauss_next : option F }.

Definition py_random (st : py_state) : F * py_state :=
  (raw (consumed st), {| consumed := S (consumed st); gauss_next := gauss_next st |}).

Definition py_gauss (mu sigma : F) (st : py_state) : F * py_state :=
  match gauss_next st with
  | Some z =>
      (fadd mu (fmul z sigma), {| consumed := consumed st; gauss_next := None |})
  | None =>
      let x1 := raw (consumed st) in
      let x2 := raw (S (consumed st)) in
      let '(z, z') := box_muller x1 x2 in
      (fadd mu (fmul z sigma), {| consumed := S (S (consumed st)); gauss_next := Some z' |})
  end.

Definition py_source : RandomSource :=
  {| rng := py_state; gauss := py_gauss; random := py_random |}.

Definition py_seeded : py_state := {| consumed := 0; gauss_next := None |}.
End PyRandom.
End Numpy.

Arguments RandomSource F : clear implicits.

(** ** The notebook as a whole *)

(** The cells that lead to the MCMC loop: the synthetic data, the
    least-squares estimate that starts the chain, and the loop itself.  The
    plotting cells and the grid evaluation of the posterior do not change any
    variable the loop reads. [least_squares residuals guess] stands for
    [scipy.optimize.least_squares(residuals, guess, method="lm").x]. *)
Module Notebook.
Section Cells.
Context {F : Type} `{Elementary F}.
Local Abbreviation vector := (list F).
Local Abbreviation matrix := (list (list F)).
Variable rs : RandomSource F.
Variable least_squares : (vector → option vector) → vector → option vector.

(** [w0 = 5.; w1 = 3.] *)
Definition w0 : F := of_int 5.
Definition w1 : F := of_int 3.

(** [nx_data = 200] and [x_data = np.linspace(0, 10, nx_data)] *)
Definition nx_data : nat := 200.
Definition x_data : vector := np_linspace (of_int 0) (of_int 10) nx_data.

(** [sigma_y = 1.5] *)
Definition sigma_y : F := lit 15 10.

(** [rn = [(random.gauss(0, sigma_y)) for i in range(nx_data)]] *)
Fixpoint draw_noise (k : nat) (g : rng rs) : vector * rng rs :=
  match k with
  | O => ([], g)
  | S k' =>
      let '(z, g1) := gauss rs (of_int 0) sigma_y g in
      let '(zs, g2) := draw_noise k' g1 in
      (z :: zs, g2)
  end.

(** [n_it = int(1e4)] *)
Definition n_it : nat := Z.to_nat 10000.

(** [lsq_fun = lambda w: (increasing_sinus_model(x_data, w)-y_noisy)] *)
Definition lsq_fun (y_noisy : vector) (w : vector) : option vector :=
  y ← increasing_sinus_model x_data w;
  vsub y y_noisy.

Definition notebook (g : rng rs) : option (matrix * rng rs) :=
  let '(rn, g1) := draw_noise nx_data g in
  y_nom ← increasing_sinus_model x_data [w0; w1];
  y_noisy ← vadd y_nom rn;
  w_MLE ← least_squares (lsq_fun y_noisy) [w0; w1];
  mcmc rs sigma_y x_data y_noisy n_it w_MLE g1.
End Cells.
End Notebook.

(** ** Statements about the random source *)

(** The uniform draws come from a stream of their own: a normal draw made
    before a uniform draw does not change the value the uniform draw returns. *)
Definition independent_streams {F : Type} (rs : RandomSource F) : Prop :=
  ∀ (mu sigma : F) (g : rng rs),
    (random rs (gauss rs mu sigma g).2).1 = (random rs g).1.

(** The sampler reports a current state whose likelihood is zero or not
    finite: the step fails instead of writing slot [n+1]. *)
Definition degenerate_state_raises (rs : RandomSource B64.float) : Prop :=
  ∀ (w_n : list (list B64.float)) (n : nat) (w_cur w_star : list B64.float)
    (L_star L_cur : B64.float) (g : rng rs),
    B64.degenerate L_cur →
    mh_decide rs w_n n w_cur w_star L_star L_cur g = None.

(** ** Statements about the likelihood and the factor *)

(** The likelihood returns a non-negative scalar on every finite parameter
    vector of [dim] entries. *)
Definition nonnegative_likelihood {E : @Elementary B64.float B64_arith}
    (sigma_y : B64.float) (x_data y_noisy : list B64.float) : Prop :=
  ∀ w : list B64.float,
    length w = dim → forallb B64.isfinite w = true →
    ∃ L, fun_LL sigma_y x_data y_noisy w = Some L ∧ B64.leb B64.zero L = true.

(** [R] is the lower-triangular Cholesky factor of the [n] by [n] matrix
    [a]: zero above the diagonal, positive on it, and [R . R^T = a]. *)
Definition lower_cholesky_factor `{Arith F} (n : nat) (R a : list (list F)) : Prop :=
  length R = n
  ∧ (∀ i j : nat, i < j < n → entry R i j = of_int 0)
  ∧ (∀ i : nat, i < n → fltb (of_int 0) (entry R i i) = true)
  ∧ (∀ i j : nat, i < n → j < n → gram R i j = entry a i j).

(** ** A concrete binary64 run *)

Module Demo.
(** A generator whose outputs are [0/16, 1/16, ..., 15/16] in turn. *)
Definition raw (k : nat) : B64.float := lit (Z.of_nat (k mod 16)) 16.

(** A stand-in for the transform of [gauss]; no statement below depends on
    the values it returns. *)
Definition box_muller (x1 x2 : B64.float) : B64.float * B64.float :=
  (B64.sub x1 x2, B64.sub x2 x1).

Definition source : RandomSource B64.float := py_source raw box_muller.
Definition seed : rng source := py_seeded.

Definition w_cur : list B64.float := [of_int 5; of_int 3].
Definition w_star : list B64.float := [lit 51 10; lit 301 100].
Definition w_n : list (list B64.float) := [w_cur; np_zeros dim].
(** The factor of [proposal_cov] and a chain array of four rows. *)
Definition factor : list (list B64.float) :=
  [[S754_finite false 8056283928194521 (-55); B64.zero];
   [B64.zero; S754_finite false 5764607523034235 (-59)]].
Definition chain : list (list B64.float) :=
  [w_cur; np_zeros dim; np_zeros dim; np_zeros dim].
Definition half : B64.float := Eval vm_compute in lit 1 2.
Definition quarter : B64.float := Eval vm_compute in lit 1 4.

(** [2^1023], a finite binary64 number. *)
Definition two_to_1023 : B64.float := S754_finite false 4503599627370496 971.

(** Stand-ins for [np.exp], [np.sin] and [np.sum], to run the code on
    concrete inputs.  [exp_stand_in] has the range of the exponential (NaN
    on NaN, otherwise never negative) and its values at the infinities, at
    zero and below [-746], where the exponential underflows to zero;
    [sin_stand_in] has the values of the sine at zero, at NaN and at the
    infinities, where it is NaN; [sum_left_to_right] adds from left to right.
    No statement below depends on the values they return elsewhere. *)
Definition exp_stand_in (x : B64.float) : B64.float :=
  match x with
  | S754_nan => S754_nan
  | S754_infinity true => B64.zero
  | S754_infinity false => x
  | _ => if B64.ltb x (of_int (-746)) then B64.zero else B64.one
  end.

Definition sin_stand_in (x : B64.float) : B64.float :=
  match x with
  | S754_nan | S754_infinity _ => S754_nan
  | S754_zero _ => x
  | S754_finite _ _ _ => B64.zero
  end.

Definition sum_left_to_right (a : list B64.float) : B64.float :=
  foldl B64.add B64.zero a.

Definition elementary : Elementary B64.float :=
  {| np_exp := exp_stand_in; np_sin := sin_stand_in;
     np_pi := B64.pi; np_sum := sum_left_to_right |}.

(** The data cell run on this generator:
    [y_noisy = increasing_sinus_model(x_data, [w0, w1]) + rn]. *)
Definition y_noisy : list B64.float :=
  default []
    (y_nom ← increasing_sinus_model (H0 := elementary) Notebook.x_data
               [Notebook.w0; Notebook.w1];
     vadd y_nom (Notebook.draw_noise source Notebook.nx_data seed).1).
End Demo.

(** ** The screening of the posterior on a grid *)

Section Screening.
Context {F : Type} `{Elementary F}.
Variable sigma_y : F.
Variables x_data y_noisy : list F.

(** The value [fun_LL] computes on [[a, b]], past the checks of shape. *)
Definition fun_LL_value (a b : F) : F :=
  np_exp (fmul (fdiv (fdiv (of_int (-1)) (of_int 2)) (fmul sigma_y sigma_y))
               (np_sum (vsquare (zip_with fsub y_noisy (model_at a b <$> x_data))))).

(** [np.ndenumerate(v)] on a one-dimensional array: the entries with their
    indices, in order. *)
Definition np_ndenumerate (v : list F) : list (nat * F) := zip (seq 0 (length v)) v.

(** [f_post[i,j] = value]: both indices must be in range ([IndexError]). *)
Definition set_entry (f_post : list (list F)) (i j : nat) (value : F)
    : option (list (list F)) :=
  row ← f_post !! i;
  if decide (j < length row)%nat then Some (<[i := <[j := value]> row]> f_post) else None.

(** [for j, param_j in np.ndenumerate(vec_param_j):
       c_param = np.array([param_i, param_j]); f_post[i,j] = fun_LL(c_param)] *)
Fixpoint screen_row (i : nat) (param_i : F) (js : list (nat * F))
    (f_post : list (list F)) : option (list (list F)) :=
  match js with
  | [] => Some f_post
  | (j, param_j) :: js' =>
      value ← fun_LL sigma_y x_data y_noisy [param_i; param_j];
      f_post' ← set_entry f_post i j value;
      screen_row i param_i js' f_post'
  end.

(** [for i, param_i in np.ndenumerate(vec_param_i): ...] *)
Fixpoint screen_rows (ks : list (nat * F)) (vec_param_j : list F)
    (f_post : list (list F)) : option (list (list F)) :=
  match ks with
  | [] => Some f_post
  | (i, param_i) :: ks' =>
      f_post' ← screen_row i param_i (np_ndenumerate vec_param_j) f_post;
      screen_rows ks' vec_param_j f_post'
  end.

(** [f_post = np.zeros([vec_param_i.size, vec_param_j.size])] and the two
    loops that fill it. *)
Definition screening (vec_param_i vec_param_j : list F) : option (list (list F)) :=
  screen_rows (np_ndenumerate vec_param_i) vec_param_j
    (np_zeros2 (length vec_param_i) (length vec_param_j)).
End Screening.

(** * Properties *)

(** ** Shapes: the array operations do not fail on the shapes of the program *)

Section Shapes.
Context {F : Type} `{Elementary F}.
Local Abbreviation vector := (list F).
Local Abbreviation matrix := (list (list F)).

Lemma np_binop_same_shape (op : F → F → F) (a b : vector) :
  length a = length b → np_binop op a b = Some (zip_with op a b).
Proof. intros Hab. unfold np_binop. by rewrite decide_True. Qed.

Lemma np_matmul_shape (R : matrix) (v : vector) :
  Forall (λ row : list F, length row = length v) R →
  np_matmul R v = Some ((λ row, dot row v) <$> R).
Proof. intros HR. unfold np_matmul. by rewrite decide_True. Qed.

Lemma set_row_Some (w_n : matrix) (i : nat) (v : vector) :
  i < length w_n → length v = dim → set_row w_n i v = Some (<[i := v]> w_n).
Proof. intros Hi Hv. unfold set_row. by rewrite !decide_True. Qed.

Lemma set_row_inv (w_n w_n' : matrix) (i : nat) (v : vector) :
  set_row w_n i v = Some w_n' →
  i < length w_n ∧ ∃ v', length v' = dim ∧ w_n' = <[i := v']> w_n
    ∧ (length v = dim → v' = v).
Proof.
  unfold set_row. intros Hset.
  destruct (decide (i < length w_n)) as [Hi|]; [|done].
  split; [done|].
  destruct (decide (length v = dim)) as [Hv|Hv].
  - exists v. by simplify_eq.
  - destruct v as [|x [|]]; simplify_eq.
    exists (replicate dim x). split; [apply length_replicate|]. split; [done|].
    intros Hlen. by destruct Hv.
Qed.

Lemma proposal_shape (R : matrix) (w z : vector) :
  length R = dim → Forall (λ row : list F, length row = dim) R →
  length w = dim → length z = dim →
  ∃ w_star, proposal R w z = Some w_star ∧ length w_star = dim
    ∧ w_star = zip_with fadd w ((λ row, dot row z) <$> R).
Proof.
  intros HR Hrows Hw Hz. unfold proposal.
  rewrite np_matmul_shape; [|by rewrite Hz]. simpl.
  unfold vadd. rewrite np_binop_same_shape; [|by rewrite length_fmap, HR].
  eexists. split; [done|]. split; [|done].
  rewrite length_zip_with, length_fmap. lia.
Qed.

Lemma draw_normals_length (rs : RandomSource F) (k : nat) (g : rng rs) :
  length (draw_normals rs k g).1 = k.
Proof.
  revert g. induction k as [|k IH]; intros g; simpl; [done|].
  destruct (gauss rs (of_int 0) (of_int 1) g) as [z g1].
  specialize (IH g1). destruct (draw_normals rs k g1) as [zs g2].
  simpl in *. by rewrite IH.
Qed.

Lemma increasing_sinus_model_shape (x w : vector) :
  length w = dim →
  ∃ y, increasing_sinus_model x w = Some y ∧ length y = length x.
Proof.
  intros Hw. destruct w as [|w0 [|w1 [|]]]; try done.
  eexists. split; [done|]. apply length_fmap.
Qed.

Lemma fun_LL_total (sigma_y : F) (x_data y_noisy w : vector) :
  length y_noisy = length x_data → length w = dim →
  is_Some (fun_LL sigma_y x_data y_noisy w).
Proof.
  intros Hobs Hw. unfold fun_LL.
  destruct (increasing_sinus_model_shape x_data w Hw) as (y & -> & Hy). simpl.
  unfold vsub. rewrite np_binop_same_shape; [|congruence]. by eexists.
Qed.

Lemma fun_LL_is_exp (sigma_y : F) (x_data y_noisy w : vector) (L : F) :
  fun_LL sigma_y x_data y_noisy w = Some L → ∃ a, L = np_exp a.
Proof.
  unfold fun_LL. intros HL.
  destruct (increasing_sinus_model x_data w); simpl in HL; [|done].
  destruct (vsub y_noisy l); simpl in HL; [|done].
  eexists. by simplify_eq.
Qed.

Lemma chol_rows_length (a : matrix) (n : nat) (js : list nat) (U R : matrix) :
  chol_rows a n js U = Some R → length R = length U + length js.
Proof.
  revert U. induction js as [|j js IH]; intros U; simpl.
  - intros. simplify_eq. lia.
  - destruct (chol_row a n U j) as [row|]; simpl; [|done].
    intros HR. apply IH in HR. rewrite length_app in HR. simpl in *. lia.
Qed.

Lemma chol_row_length (a : matrix) (n : nat) (U : matrix) (j : nat) (row : vector) :
  chol_row a n U j = Some row → length row = n.
Proof.
  unfold chol_row. destruct (fltb _ _); [|done].
  intros. simplify_eq. by rewrite length_fmap, length_seq.
Qed.

Lemma chol_rows_row_length (a : matrix) (n : nat) (js : list nat) (U R : matrix) :
  Forall (λ row : list F, length row = n) U →
  chol_rows a n js U = Some R → Forall (λ row : list F, length row = n) R.
Proof.
  revert U. induction js as [|j js IH]; intros U HU; simpl.
  - intros. by simplify_eq.
  - destruct (chol_row a n U j) as [row|] eqn:Hrow; simpl; [|done].
    apply IH. apply Forall_app. split; [done|].
    apply Forall_singleton. by eapply chol_row_length.
Qed.

Lemma proposal_2x2 (r00 r01 r10 r11 w0 w1 z0 z1 : F) :
  proposal [[r00; r01]; [r10; r11]] [w0; w1] [z0; z1]
  = Some [fadd w0 (fadd (fadd (of_int 0) (fmul r00 z0)) (fmul r01 z1));
          fadd w1 (fadd (fadd (of_int 0) (fmul r10 z0)) (fmul r11 z1))].
Proof.
  unfold proposal. rewrite np_matmul_shape by (by repeat constructor).
  cbn [mbind option_bind]. unfold vadd. by rewrite np_binop_same_shape.
Qed.

Lemma cholesky_proposal_cov_shape (R : matrix) :
  cholesky proposal_cov = Some R →
  length R = dim ∧ Forall (λ row : list F, length row = dim) R.
Proof.
  unfold cholesky.
  destruct (forallb (forallb np_isfinite) proposal_cov); [|done].
  destruct (decide _); [|done].
  intros HR. split.
  - by apply chol_rows_length in HR.
  - by apply chol_rows_row_length in HR.
Qed.
End Shapes.

(** ** The accept-reject step and the loop *)

Section Run.
Context {F : Type} `{Elementary F}.
Local Abbreviation vector := (list F).
Local Abbreviation matrix := (list (list F)).
Variable rs : RandomSource F.
Variable sigma_y : F.
Variables x_data y_noisy : vector.

(** On a well-shaped array the step does not fail, whatever the two
    likelihood values are: it writes [w_star] or [w_cur] to slot [n+1]. *)
Lemma mh_decide_eq (w_n : matrix) (n : nat) (w_cur w_star : vector)
    (L_star L_cur : F) (g : rng rs) :
  S n < length w_n → length w_cur = dim → length w_star = dim →
  mh_decide rs w_n n w_cur w_star L_star L_cur g
  = Some (<[S n := if mh_accepts L_star L_cur (random rs g).1 then w_star else w_cur]> w_n,
          (random rs g).2).
Proof.
  intros Hn Hcur Hstar. unfold mh_decide, mh_accepts, mh_alpha.
  destruct (random rs g) as [u g']. simpl.
  destruct (fltb u _); by rewrite set_row_Some.
Qed.

Lemma mh_decide_inv (w_n : matrix) (n : nat) (w_cur w_star : vector)
    (L_star L_cur : F) (g : rng rs) (w_n' : matrix) (g' : rng rs) :
  mh_decide rs w_n n w_cur w_star L_star L_cur g = Some (w_n', g') →
  g' = (random rs g).2 ∧
  set_row w_n (S n) (if mh_accepts L_star L_cur (random rs g).1 then w_star else w_cur)
  = Some w_n'.
Proof.
  unfold mh_decide, mh_accepts, mh_alpha.
  destruct (random rs g) as [u g'']. simpl.
  destruct (fltb u _);
    (destruct (set_row w_n (S n) _) as [w|] eqn:Hset; simpl; [|done]);
    intros; by simplify_eq.
Qed.

Lemma mh_iteration_eq (R : matrix) (n : nat) (w_n : matrix) (g : rng rs) :
  length y_noisy = length x_data →
  length R = dim → Forall (λ row : vector, length row = dim) R →
  Forall (λ row : vector, length row = dim) w_n → S n < length w_n →
  ∃ w_cur w_star L_star L_cur,
    w_n !! n = Some w_cur ∧ length w_cur = dim ∧ length w_star = dim
    ∧ proposal R w_cur (draw_normals rs dim g).1 = Some w_star
    ∧ fun_LL sigma_y x_data y_noisy w_star = Some L_star
    ∧ fun_LL sigma_y x_data y_noisy w_cur = Some L_cur
    ∧ mh_iteration rs sigma_y x_data y_noisy R n (w_n, g)
      = mh_decide rs w_n n w_cur w_star L_star L_cur (draw_normals rs dim g).2.
Proof.
  intros Hobs HR Hrows Hwn Hn.
  destruct (lookup_lt_is_Some_2 w_n n) as [w_cur Hcur]; [lia|].
  assert (length w_cur = dim) as Hlen.
  { eapply (Forall_lookup_1 _ _ _ _ Hwn); eauto. }
  pose proof (draw_normals_length rs dim g) as Hz.
  destruct (proposal_shape R w_cur (draw_normals rs dim g).1 HR Hrows Hlen Hz)
    as (w_star & Hprop & Hstar & _).
  destruct (fun_LL_total sigma_y x_data y_noisy w_star Hobs Hstar) as [L_star HLs].
  destruct (fun_LL_total sigma_y x_data y_noisy w_cur Hobs Hlen) as [L_cur HLc].
  exists w_cur, w_star, L_star, L_cur. repeat (split; [done|]).
  unfold mh_iteration. destruct (draw_normals rs dim g) as [z g1]. simpl in *.
  rewrite Hcur. simpl. rewrite Hprop. simpl. rewrite HLs. simpl. by rewrite HLc.
Qed.

Lemma insert_rows_shape (w_n : matrix) (i : nat) (v : vector) :
  Forall (λ row : vector, length row = dim) w_n → length v = dim →
  Forall (λ row : vector, length row = dim) (<[i := v]> w_n).
Proof. intros Hwn Hv. by apply Forall_insert. Qed.

(** The loop over [seq a k] on an array with more than [a + k] rows: it
    returns, leaves the rows up to [a] alone, and each of its steps stores in
    the next row either the current row or the proposal made from it. *)
Lemma mh_loop_spec (R : matrix) (k a : nat) (w_n : matrix) (g : rng rs) :
  length y_noisy = length x_data →
  length R = dim → Forall (λ row : vector, length row = dim) R →
  Forall (λ row : vector, length row = dim) w_n → a + k < length w_n →
  ∃ w_n' g',
    mh_loop rs sigma_y x_data y_noisy R (seq a k) (w_n, g) = Some (w_n', g')
    ∧ length w_n' = length w_n
    ∧ (∀ i, i ≤ a → w_n' !! i = w_n !! i)
    ∧ (∀ n, a ≤ n < a + k →
         ∃ w_cur, w_n' !! n = Some w_cur ∧
           (w_n' !! S n = Some w_cur ∨
            ∃ gn w_star, proposal R w_cur (draw_normals rs dim gn).1 = Some w_star
                         ∧ w_n' !! S n = Some w_star)).
Proof.
  intros Hobs HR Hrows. revert a w_n g.
  induction k as [|k IH]; intros a w_n g Hwn Hlen; cbn [seq mh_loop].
  - exists w_n, g. split; [done|]. split; [done|]. split; [done|]. intros n Hn. lia.
  - destruct (mh_iteration_eq R a w_n g Hobs HR Hrows Hwn)
      as (w_cur & w_star & L_star & L_cur & Hcur & Hlc & Hls & Hprop & _ & _ & ->);
      [lia|].
    rewrite mh_decide_eq by (done || lia). cbn [mbind option_bind].
    set (v := if mh_accepts L_star L_cur _ then w_star else w_cur).
    assert (length v = dim) as Hv by (subst v; by destruct (mh_accepts _ _ _)).
    destruct (IH (S a) (<[S a := v]> w_n) (random rs (draw_normals rs dim g).2).2)
      as (w_n' & g' & -> & Hlen' & Hkeep & Hsteps).
    { by apply insert_rows_shape. }
    { rewrite length_insert. lia. }
    rewrite length_insert in Hlen'.
    exists w_n', g'. split; [done|]. split; [done|]. split.
    + intros i Hi. rewrite Hkeep by lia. apply list_lookup_insert_ne. lia.
    + intros n Hn. destruct (decide (n = a)) as [->|Hne]; [|apply Hsteps; lia].
      exists w_cur. split.
      * rewrite Hkeep by lia. rewrite list_lookup_insert_ne by lia. done.
      * rewrite Hkeep by lia. rewrite list_lookup_insert_eq by lia.
        subst v. destruct (mh_accepts _ _ _); [right|left; done].
        by exists g, w_star.
Qed.

(** The cell up to its loop: the array is allocated, the factor computed and
    the starting vector stored in row 0. *)
Lemma mcmc_unfold (n_it : nat) (w_MLE : vector) (g : rng rs) (R : matrix) :
  length w_MLE = dim → cholesky proposal_cov = Some R →
  mcmc rs sigma_y x_data y_noisy n_it w_MLE g
  = mh_loop rs sigma_y x_data y_noisy R (seq 0 n_it)
      (<[0 := w_MLE]> (np_zeros2 (n_it + 1) dim), g)
  ∧ length (<[0 := w_MLE]> (np_zeros2 (n_it + 1) dim)) = n_it + 1
  ∧ Forall (λ row : vector, length row = dim) (<[0 := w_MLE]> (np_zeros2 (n_it + 1) dim)).
Proof.
  intros Hw HR. unfold mcmc. rewrite HR. cbn [mbind option_bind].
  assert (length (np_zeros2 (n_it + 1) dim) = n_it + 1) as Hz
    by apply length_replicate.
  rewrite set_row_Some by (done || lia). cbn [mbind option_bind].
  split; [done|]. split; [by rewrite length_insert|].
  apply insert_rows_shape; [|done].
  apply Forall_replicate. apply length_replicate.
Qed.

(** The loop over [seq a k], with the generator of each of its iterations:
    iteration [n] makes its proposal and its uniform draw from the generator
    reached after [n - a] iterations, and stores in row [n+1] the proposal
    when the draw is below the acceptance probability and row [n] otherwise. *)
Lemma mh_loop_trace (R : matrix) (k a : nat) (w_n : matrix) (g : rng rs) :
  length y_noisy = length x_data →
  length R = dim → Forall (λ row : vector, length row = dim) R →
  Forall (λ row : vector, length row = dim) w_n → a + k < length w_n →
  ∃ w_n',
    mh_loop rs sigma_y x_data y_noisy R (seq a k) (w_n, g)
    = Some (w_n', generator_at rs k g)
    ∧ length w_n' = length w_n
    ∧ (∀ i, i ≤ a → w_n' !! i = w_n !! i)
    ∧ (∀ n, a ≤ n < a + k →
         ∃ w_cur w_star L_star L_cur,
           w_n' !! n = Some w_cur
           ∧ proposal R w_cur (draw_normals rs dim (generator_at rs (n - a) g)).1
             = Some w_star
           ∧ fun_LL sigma_y x_data y_noisy w_star = Some L_star
           ∧ fun_LL sigma_y x_data y_noisy w_cur = Some L_cur
           ∧ w_n' !! S n
             = Some (if mh_accepts L_star L_cur
                          (random rs (draw_normals rs dim (generator_at rs (n - a) g)).2).1
                     then w_star else w_cur)).
Proof.
  intros Hobs HR Hrows. revert a w_n g.
  induction k as [|k IH]; intros a w_n g Hwn Hlen; cbn [seq mh_loop].
  - exists w_n. split; [done|]. split; [done|]. split; [done|]. intros n Hn. lia.
  - destruct (mh_iteration_eq R a w_n g Hobs HR Hrows Hwn)
      as (w_cur & w_star & L_star & L_cur & Hcur & Hlc & Hls & Hprop & HLs & HLc & ->);
      [lia|].
    rewrite mh_decide_eq by (done || lia). cbn [mbind option_bind].
    set (v := if mh_accepts L_star L_cur _ then w_star else w_cur).
    assert (length v = dim) as Hv by (subst v; by destruct (mh_accepts _ _ _)).
    change (random rs (draw_normals rs dim g).2).2 with (next_generator rs g).
    destruct (IH (S a) (<[S a := v]> w_n) (next_generator rs g))
      as (w_n' & -> & Hlen' & Hkeep & Hsteps).
    { by apply insert_rows_shape. }
    { rewrite length_insert. lia. }
    rewrite length_insert in Hlen'.
    exists w_n'. split.
    { unfold generator_at. by rewrite Nat.iter_succ_r. }
    split; [done|]. split.
    + intros i Hi. rewrite Hkeep by lia. apply list_lookup_insert_ne. lia.
    + intros n Hn. destruct (decide (n = a)) as [->|Hne].
      * exists w_cur, w_star, L_star, L_cur. rewrite Nat.sub_diag.
        split; [rewrite Hkeep by lia; by rewrite list_lookup_insert_ne by lia|].
        repeat (split; [done|]).
        rewrite Hkeep by lia. by rewrite list_lookup_insert_eq by lia.
      * destruct (Hsteps n) as (w_cur' & w_star' & L_star' & L_cur' & H1 & H2 & H3 & H4 & H5);
          [lia|].
        assert (generator_at rs (n - S a) (next_generator rs g) = generator_at rs (n - a) g)
          as Hgen.
        { unfold generator_at. rewrite <- Nat.iter_succ_r. f_equal. lia. }
        rewrite Hgen in H2, H5.
        by exists w_cur', w_star', L_star', L_cur'.
Qed.

(** C1. For every [n_it >= 0], once the observation set is well shaped, the
    starting vector has [dim] entries and [proposal_cov] has a Cholesky
    factor [R], the cell returns a trajectory [w_n] of exactly [n_it + 1]
    rows whose row 0 is the starting vector.  For every [n < n_it], with the
    generator as [n] iterations have left it, row [n+1] is the [w_star]
    proposed in that iteration from row [n] when the uniform draw of the
    iteration is below the acceptance probability, and row [n] repeated
    otherwise: every slot is written by its own step, none is skipped. *)
Theorem trajectory_length (n_it : nat) (w_MLE : vector) (g : rng rs) (R : matrix) :
  length y_noisy = length x_data → length w_MLE = dim →
  cholesky proposal_cov = Some R →
  ∃ w_n,
    mcmc rs sigma_y x_data y_noisy n_it w_MLE g = Some (w_n, generator_at rs n_it g)
    ∧ length w_n = n_it + 1
    ∧ w_n !! 0 = Some w_MLE
    ∧ (∀ n, n < n_it →
         ∃ w_cur w_star L_star L_cur,
           w_n !! n = Some w_cur
           ∧ length (draw_normals rs dim (generator_at rs n g)).1 = dim
           ∧ proposal R w_cur (draw_normals rs dim (generator_at rs n g)).1 = Some w_star
           ∧ fun_LL sigma_y x_data y_noisy w_star = Some L_star
           ∧ fun_LL sigma_y x_data y_noisy w_cur = Some L_cur
           ∧ w_n !! S n
             = Some (if mh_accepts L_star L_cur
                          (random rs (draw_normals rs dim (generator_at rs n g)).2).1
                     then w_star else w_cur)).
Proof.
  intros Hobs Hw HR.
  destruct (cholesky_proposal_cov_shape R HR) as [HlenR Hrows].
  destruct (mcmc_unfold n_it w_MLE g R Hw HR) as (-> & Hlen0 & Hrows0).
  destruct (mh_loop_trace R n_it 0 (<[0 := w_MLE]> (np_zeros2 (n_it + 1) dim)) g)
    as (w_n & Hrun & Hlen & Hkeep & Hsteps); try done.
  { rewrite Hlen0. lia. }
  rewrite Hlen0 in Hlen.
  exists w_n. split; [done|]. split; [done|]. split.
  - rewrite Hkeep by lia. apply list_lookup_insert_eq.
    unfold np_zeros2. rewrite length_replicate. lia.
  - intros n Hn.
    destruct (Hsteps n) as (w_cur & w_star & L_star & L_cur & H1 & H2 & H3 & H4 & H5);
      [lia|].
    rewrite Nat.sub_0_r in H2, H5.
    exists w_cur, w_star, L_star, L_cur. split; [done|].
    split; [exact (draw_normals_length rs dim (generator_at rs n g))|]. done.
Qed.

(** C6. A step writes slot [n+1] and nothing else: every other row of [w_n],
    in particular the rows [0..n] written before, is unchanged and the array
    keeps its length; and when the draw rejects the candidate, the new row
    [n+1] is exactly the current row [n]. *)
Theorem rejection_fallback (w_n : matrix) (n : nat) (w_cur w_star : vector)
    (L_star L_cur : F) (g : rng rs) (w_n' : matrix) (g' : rng rs) :
  w_n !! n = Some w_cur → length w_cur = dim →
  mh_decide rs w_n n w_cur w_star L_star L_cur g = Some (w_n', g') →
  (mh_accepts L_star L_cur (random rs g).1 = false → w_n' !! S n = w_n !! n)
  ∧ (∀ i, i ≠ S n → w_n' !! i = w_n !! i)
  ∧ length w_n' = length w_n.
Proof.
  intros Hcur Hlen Hstep.
  apply mh_decide_inv in Hstep as [_ Hset].
  apply set_row_inv in Hset as (Hn & v' & Hv' & -> & Hsame).
  split; [|split].
  - intros Hrej. rewrite Hrej in Hsame. rewrite Hsame by done.
    rewrite Hcur. by apply list_lookup_insert_eq.
  - intros i Hi. by apply list_lookup_insert_ne.
  - apply length_insert.
Qed.

(** The same frame for a whole iteration of the loop. *)
Lemma mh_iteration_frame (R : matrix) (n : nat) (w_n : matrix) (g : rng rs)
    (w_n' : matrix) (g' : rng rs) :
  mh_iteration rs sigma_y x_data y_noisy R n (w_n, g) = Some (w_n', g') →
  (∀ i, i ≠ S n → w_n' !! i = w_n !! i) ∧ length w_n' = length w_n.
Proof.
  unfold mh_iteration. destruct (draw_normals rs dim g) as [z g1].
  destruct (w_n !! n) as [w_cur|]; cbn [mbind option_bind]; [|done].
  destruct (proposal R w_cur z) as [w_star|]; cbn [mbind option_bind]; [|done].
  destruct (fun_LL sigma_y x_data y_noisy w_star) as [L_star|];
    cbn [mbind option_bind]; [|done].
  destruct (fun_LL sigma_y x_data y_noisy w_cur) as [L_cur|];
    cbn [mbind option_bind]; [|done].
  intros Hstep. apply mh_decide_inv in Hstep as [_ Hset].
  apply set_row_inv in Hset as (Hn & v' & Hv' & -> & _).
  split; [|apply length_insert].
  intros i Hi. by apply list_lookup_insert_ne.
Qed.
End Run.

(** ** The notebook as a whole *)

Section NotebookRun.
Import Notebook.
Context {F : Type} `{Elementary F}.
Local Abbreviation vector := (list F).
Local Abbreviation matrix := (list (list F)).
Variable rs : RandomSource F.

Lemma draw_noise_length (k : nat) (g : rng rs) : length (draw_noise rs k g).1 = k.
Proof.
  revert g. induction k as [|k IH]; intros g; cbn [draw_noise]; [done|].
  destruct (gauss rs (of_int 0) sigma_y g) as [z g1].
  specialize (IH g1). destruct (draw_noise rs k g1) as [zs g2].
  cbn [fst length] in *. by rewrite IH.
Qed.

Lemma np_linspace_length (start stop : F) (num : nat) :
  length (np_linspace start stop num) = num.
Proof. unfold np_linspace. by rewrite length_insert, length_fmap, length_seq. Qed.

(** The notebook meets the conditions of [trajectory_length] by itself: its
    observation set is well shaped, so with an optimizer that returns a
    vector as long as its initial guess and a successful factorization, the
    notebook returns a trajectory of [n_it + 1] rows that starts at the
    estimate. *)
Lemma notebook_trajectory
    (least_squares : (vector → option vector) → vector → option vector)
    (g : rng rs) (R : matrix) :
  (∀ f guess, ∃ w, least_squares f guess = Some w ∧ length w = length guess) →
  cholesky proposal_cov = Some R →
  ∃ w_MLE w_n g',
    notebook rs least_squares g = Some (w_n, g')
    ∧ length w_n = n_it + 1 ∧ w_n !! 0 = Some w_MLE.
Proof.
  intros Hsolver HR. unfold notebook.
  pose proof (draw_noise_length nx_data g) as Hrn.
  destruct (draw_noise rs nx_data g) as [rn g1]. cbn [fst] in Hrn.
  destruct (increasing_sinus_model_shape x_data [w0; w1] eq_refl)
    as (y_nom & -> & Hnom).
  cbn [mbind option_bind]. unfold vadd.
  rewrite np_binop_same_shape by (rewrite Hnom, Hrn; apply np_linspace_length).
  cbn [mbind option_bind].
  destruct (Hsolver (lsq_fun (zip_with fadd y_nom rn)) [w0; w1]) as (w_MLE & -> & Hw).
  cbn [mbind option_bind].
  destruct (cholesky_proposal_cov_shape R HR) as [HlenR Hrows].
  destruct (mcmc_unfold rs sigma_y x_data (zip_with fadd y_nom rn) n_it w_MLE g1 R)
    as (-> & Hlen0 & Hrows0); try done.
  destruct (mh_loop_spec rs sigma_y x_data (zip_with fadd y_nom rn) R n_it 0
              (<[0 := w_MLE]> (np_zeros2 (n_it + 1) dim)) g1)
    as (w_n & g' & Hrun & Hlen & Hkeep & _); try done.
  { rewrite length_zip_with, Hnom, Hrn. unfold x_data.
    rewrite np_linspace_length. lia. }
  { rewrite Hlen0. lia. }
  exists w_MLE, w_n, g'. split; [done|]. split; [congruence|].
  rewrite Hkeep by lia. apply list_lookup_insert_eq.
  unfold np_zeros2. rewrite length_replicate. lia.
Qed.
End NotebookRun.

(** ** The acceptance test in binary64 *)

Module B64_facts.
Import B64.

Lemma of_int_one : of_int (F := float) 1 = one.
Proof. reflexivity. Qed.

Lemma mh_alpha_unfold (L_star L_cur : float) :
  mh_alpha L_star L_cur
  = if ltb (div L_star L_cur) one then div L_star L_cur else one.
Proof. reflexivity. Qed.

(** Rounding keeps the sign it is given. *)
Lemma binary_round_aux_sign (s : bool) (m e : Z) (l : location) :
  match binary_round_aux prec emax s m e l with
  | S754_nan => True
  | S754_zero s' | S754_infinity s' | S754_finite s' _ _ => s' = s
  end.
Proof.
  unfold binary_round_aux.
  destruct (shr_fexp prec emax m e l) as [mrs' e'].
  destruct (shr_fexp prec emax _ e' loc_Exact) as [mrs'' e''].
  destruct (shr_m mrs''); [done| |done].
  by destruct (Z.leb e'' (emax - prec)).
Qed.

Lemma div_exp_range (x y : float) :
  exp_range x → exp_range y → exp_range (div x y).
Proof.
  destruct x as [sx|sx| |sx mx ex], y as [sy|sy| |sy my ey]; simpl;
    intros Hx Hy; subst; try done.
  unfold div, SFdiv.
  destruct (SFdiv_core_binary prec emax (Z.pos mx) ex (Z.pos my) ey) as [[mz ez] lz].
  pose proof (binary_round_aux_sign (xorb false false) mz ez lz) as Hs.
  unfold exp_range. by destruct (binary_round_aux _ _ _ _ _ _).
Qed.

Lemma ltb_leb (x y : float) : ltb x y = true → leb x y = true.
Proof. unfold ltb, leb, SFltb, SFleb. by destruct (SFcompare x y) as [[]|]. Qed.

Lemma exp_range_nonneg (x y : float) :
  exp_range x → ltb x y = true → leb zero x = true.
Proof.
  destruct x as [sx|sx| |sx mx ex]; simpl; intros Hx Hlt; subst; try done.
Qed.

Lemma unit_interval_not_neg (u : float) : unit_interval u → ltb u zero = false.
Proof. intros [Hu _]. by destruct u as [[]|[]| |[] m e]. Qed.

(** *** Division of a float by a smaller one does not round below one *)

Local Open Scope Z_scope.

Lemma digits2_pos_bounds (p : positive) :
  2 ^ (Z.pos (digits2_pos p) - 1) ≤ Z.pos p < 2 ^ Z.pos (digits2_pos p).
Proof.
  induction p as [p IH|p IH|]; cbn [digits2_pos].
  - rewrite Pos2Z.inj_succ, Z.pow_succ_r by lia.
    replace (Z.succ (Z.pos (digits2_pos p)) - 1) with (Z.succ (Z.pos (digits2_pos p) - 1)) by lia.
    rewrite Z.pow_succ_r by lia. lia.
  - rewrite Pos2Z.inj_succ, Z.pow_succ_r by lia.
    replace (Z.succ (Z.pos (digits2_pos p)) - 1) with (Z.succ (Z.pos (digits2_pos p) - 1)) by lia.
    rewrite Z.pow_succ_r by lia. lia.
  - simpl. lia.
Qed.

Lemma shr_1_m (mrs : shr_record) :
  0 ≤ shr_m mrs → shr_m (shr_1 mrs) = shr_m mrs / 2.
Proof.
  destruct mrs as [m r s]. simpl. intros Hm.
  rewrite <- Z.div2_div. by destruct m as [|[p|p|]|p].
Qed.

Lemma iter_shr_1_m (p : positive) (mrs : shr_record) :
  0 ≤ shr_m mrs → shr_m (SpecFloat.iter_pos shr_1 p mrs) = shr_m mrs / 2 ^ Z.pos p.
Proof.
  revert mrs. induction p as [p IH|p IH|]; intros mrs Hm; cbn [SpecFloat.iter_pos].
  - assert (0 ≤ shr_m (shr_1 mrs)) as H1 by (rewrite shr_1_m by done; apply Z.div_pos; lia).
    assert (0 < 2 ^ Z.pos p) as Hp by (apply Z.pow_pos_nonneg; lia).
    rewrite IH; [|rewrite IH by done; apply Z.div_pos; lia].
    rewrite IH by done. rewrite shr_1_m by done.
    rewrite !Z.div_div by lia. f_equal.
    replace (Z.pos p~1) with (1 + Z.pos p + Z.pos p) by lia.
    rewrite !Z.pow_add_r by lia. lia.
  - assert (0 < 2 ^ Z.pos p) as Hp by (apply Z.pow_pos_nonneg; lia).
    rewrite IH; [|rewrite IH by done; apply Z.div_pos; lia].
    rewrite IH by done.
    rewrite !Z.div_div by lia. f_equal.
    replace (Z.pos p~0) with (Z.pos p + Z.pos p) by lia.
    rewrite !Z.pow_add_r by lia. lia.
  - rewrite shr_1_m by done. done.
Qed.

Lemma fexp_unfold (k : Z) : fexp prec emax k = Z.max (k - 53) (-1074).
Proof. reflexivity. Qed.

Lemma shr_record_of_loc_m (m : Z) (l : location) : shr_m (shr_record_of_loc m l) = m.
Proof. by destruct l as [|[]]. Qed.

Lemma pow2_split (a b : Z) : 0 ≤ a → 0 ≤ b → 2 ^ (a + b) = 2 ^ a * 2 ^ b.
Proof. intros. by apply Z.pow_add_r. Qed.

Lemma shr_fexp_ge_one (m e : Z) (l : location) :
  ge_one m e →
  ge_one (shr_m (shr_fexp prec emax m e l).1) (shr_fexp prec emax m e l).2
  ∧ shr_m (shr_fexp prec emax m e l).1 < 2 ^ 53.
Proof.
  intros [Hm He]. destruct m as [|p|p]; try lia.
  unfold shr_fexp, shr. cbn [Zdigits2]. rewrite fexp_unfold.
  pose proof (digits2_pos_bounds p) as [Hlo Hhi].
  set (d := Z.pos (digits2_pos p)) in *.
  assert (0 < d) as Hd by (subst d; lia).
  destruct (Z.max (d + e - 53) (-1074) - e) as [|n|n] eqn:Hn; cbn [fst snd];
    rewrite ?shr_record_of_loc_m.
  - split; [done|].
    eapply Z.lt_le_trans; [exact Hhi|]. apply Z.pow_le_mono_r; lia.
  - rewrite iter_shr_1_m by (rewrite shr_record_of_loc_m; lia).
    rewrite shr_record_of_loc_m.
    assert (0 < 2 ^ Z.pos n) as Hpn by (apply Z.pow_pos_nonneg; lia).
    assert (2 ^ Z.pos n ≤ Z.pos p) as Hnp.
    { destruct (Z.max_spec (d + e - 53) (-1074)) as [[_ Hmax]|[_ Hmax]].
      - eapply Z.le_trans; [|exact He]. apply Z.pow_le_mono_r; lia.
      - eapply Z.le_trans; [|exact Hlo]. apply Z.pow_le_mono_r; lia. }
    split; [split|].
    + apply Z.div_le_lower_bound; lia.
    + destruct (Z_le_gt_dec (e + Z.pos n) 0) as [Hle|Hgt].
      * apply Z.div_le_lower_bound; [done|].
        rewrite <- pow2_split by lia.
        replace (Z.pos n + - (e + Z.pos n)) with (- e) by lia. done.
      * rewrite Z.pow_neg_r by lia. apply Z.div_pos; lia.
    + apply Z.div_lt_upper_bound; [done|].
      rewrite <- pow2_split by lia.
      eapply Z.lt_le_trans; [exact Hhi|]. apply Z.pow_le_mono_r; lia.
  - split; [done|].
    eapply Z.lt_le_trans; [exact Hhi|]. apply Z.pow_le_mono_r; lia.
Qed.

Lemma round_nearest_even_ge (m : Z) (l : location) : m ≤ round_nearest_even m l.
Proof. destruct l as [|[]]; simpl; try lia. destruct (Z.even m); lia. Qed.

Lemma ge_one_mono (m m' e : Z) : ge_one m e → m ≤ m' → ge_one m' e.
Proof. unfold ge_one. lia. Qed.

Lemma binary_round_aux_ge_one (m e : Z) (l : location) :
  ge_one m e → ltb (binary_round_aux prec emax false m e l) one = false.
Proof.
  intros Hge. unfold binary_round_aux.
  pose proof (shr_fexp_ge_one m e l Hge) as [H1 _].
  destruct (shr_fexp prec emax m e l) as [mrs' e']. cbn [fst snd] in H1.
  pose proof (ge_one_mono _ _ _ H1 (round_nearest_even_ge (shr_m mrs') (loc_of_shr_record mrs'))) as H2.
  pose proof (shr_fexp_ge_one _ e' loc_Exact H2) as [[H3 H4] H5].
  destruct (shr_fexp prec emax _ e' loc_Exact) as [mrs'' e'']. cbn [fst snd] in *.
  destruct (shr_m mrs'') as [|p|p]; try lia.
  destruct (Z.leb e'' (emax - prec)); [|done].
  unfold ltb, SFltb, one, SFcompare.
  destruct (Z.compare_spec e'' (-52)) as [Heq|Hlt|Hgt]; [| |done].
  - subst e''. rewrite Pos.compare_cont_spec. cbn [Pos.switch_Eq].
    rewrite Pos2Z.inj_compare.
    destruct (Z.compare_spec (Z.pos p) (Z.pos 4503599627370496)) as [| |]; try done.
    change (2 ^ (- -52)) with 4503599627370496 in H4. lia.
  - exfalso. assert (2 ^ 53 ≤ 2 ^ (- e'')) by (apply Z.pow_le_mono_r; lia). lia.
Qed.

Lemma div_core_ge_one (mx my : positive) (ex ey : Z) :
  ey ≤ ex → Z.pos my ≤ Z.pos mx * 2 ^ (ex - ey) →
  ge_one (SFdiv_core_binary prec emax (Z.pos mx) ex (Z.pos my) ey).1.1
         (SFdiv_core_binary prec emax (Z.pos mx) ex (Z.pos my) ey).1.2.
Proof.
  intros Hexp Hle. unfold SFdiv_core_binary. cbn [Zdigits2]. rewrite fexp_unfold.
  pose proof (digits2_pos_bounds mx) as [Hlox Hhix].
  pose proof (digits2_pos_bounds my) as [Hloy Hhiy].
  set (d1 := Z.pos (digits2_pos mx)) in *.
  set (d2 := Z.pos (digits2_pos my)) in *.
  assert (0 < d1 ∧ 0 < d2) as [Hd1 Hd2] by (subst d1 d2; lia).
  set (e' := Z.min (Z.max (d1 + ex - (d2 + ey) - 53) (-1074)) (ex - ey)).
  set (s := ex - ey - e').
  assert (0 ≤ s) as Hs by (subst s e'; lia).
  set (m' := match s with Z.pos _ => Z.shiftl (Z.pos mx) s | 0 => Z.pos mx | Z.neg _ => 0 end).
  assert (m' = Z.pos mx * 2 ^ s) as Hm'.
  { subst m'. destruct s as [|ps|ps] eqn:Hseq; [simpl; lia| |lia].
    apply Z.shiftl_mul_pow2. lia. }
  assert (0 < 2 ^ s) as Hps by (apply Z.pow_pos_nonneg; lia).
  assert ((Z.div_eucl m' (Z.pos my)).1 = m' / Z.pos my) as Hq by reflexivity.
  destruct (Z.div_eucl m' (Z.pos my)) as [q r]. cbn [fst snd] in *. subst q.
  rewrite Hm'. split.
  - apply Z.div_le_lower_bound; [lia|]. rewrite Z.mul_1_r.
    destruct (Z_le_gt_dec e' 0) as [Hneg|Hpos].
    + eapply Z.le_trans; [exact Hle|].
      apply Z.mul_le_mono_nonneg_l; [lia|]. apply Z.pow_le_mono_r; lia.
    + assert (2 ^ d2 ≤ 2 ^ (d1 - 1 + s)) as Hmono
        by (apply Z.pow_le_mono_r; subst s e'; lia).
      rewrite pow2_split in Hmono by lia.
      assert (2 ^ (d1 - 1) * 2 ^ s ≤ Z.pos mx * 2 ^ s)
        by (apply Z.mul_le_mono_nonneg_r; lia).
      lia.
  - destruct (Z_le_gt_dec e' 0) as [Hneg|Hpos].
    + apply Z.div_le_lower_bound; [lia|].
      replace s with (ex - ey + - e') by (subst s; lia).
      rewrite pow2_split by lia.
      assert (0 < 2 ^ (- e')) by (apply Z.pow_pos_nonneg; lia).
      rewrite Z.mul_assoc.
      apply Z.mul_le_mono_nonneg_r; lia.
    + rewrite Z.pow_neg_r by lia. apply Z.div_pos; lia.
Qed.

Lemma finite_leb_inv (mx my : positive) (ex ey : Z) :
  valid_binary prec emax (S754_finite false mx ex) = true →
  valid_binary prec emax (S754_finite false my ey) = true →
  leb (S754_finite false my ey) (S754_finite false mx ex) = true →
  ey ≤ ex ∧ Z.pos my ≤ Z.pos mx * 2 ^ (ex - ey).
Proof.
  unfold valid_binary, bounded, canonical_mantissa. rewrite !fexp_unfold.
  intros [Hcx _]%andb_prop [Hcy _]%andb_prop.
  apply Z.eqb_eq in Hcx, Hcy.
  pose proof (digits2_pos_bounds mx) as [Hlox Hhix].
  pose proof (digits2_pos_bounds my) as [Hloy Hhiy].
  set (d1 := Z.pos (digits2_pos mx)) in *.
  set (d2 := Z.pos (digits2_pos my)) in *.
  unfold leb, SFleb, SFcompare.
  destruct (Z.compare_spec ey ex) as [Heq|Hlt|Hgt]; [| |done].
  - subst ey. rewrite Pos.compare_cont_spec. cbn [Pos.switch_Eq].
    rewrite Pos2Z.inj_compare.
    destruct (Z.compare_spec (Z.pos my) (Z.pos mx)) as [| |]; try done;
      intros _; (split; [lia|]); rewrite Z.sub_diag; simpl; lia.
  - intros _. split; [lia|].
    assert (d1 = 53) as Hd1 by lia. assert (d2 ≤ 53) as Hd2 by lia.
    rewrite Hd1 in Hlox.
    assert (2 ^ d2 ≤ 2 ^ 53) by (apply Z.pow_le_mono_r; lia).
    assert (2 ^ 1 ≤ 2 ^ (ex - ey)) by (apply Z.pow_le_mono_r; lia).
    change (2 ^ (53 - 1)) with 4503599627370496 in Hlox.
    change (2 ^ 53) with 9007199254740992 in *. change (2 ^ 1) with 2 in *.
    nia.
Qed.

Lemma div_ge_one (x y : float) :
  valid x → valid y →
  exp_range x → exp_range y → leb y x = true →
  ltb (div x y) one = false.
Proof.
  intros Hvx Hvy Hx Hy Hle.
  destruct x as [sx|sx| |sx mx ex], y as [sy|sy| |sy my ey];
    simpl in Hx, Hy; subst; try done.
  destruct (finite_leb_inv mx my ex ey Hvx Hvy Hle) as [Hexp Hm].
  pose proof (div_core_ge_one mx my ex ey Hexp Hm) as Hge.
  unfold div, SFdiv.
  destruct (SFdiv_core_binary prec emax (Z.pos mx) ex (Z.pos my) ey) as [[q e'] l].
  by apply binary_round_aux_ge_one.
Qed.

Local Close Scope Z_scope.
End B64_facts.

Module Acceptance.
Import B64 B64_facts.

(** The likelihood values of an iteration are results of [np.exp]; with an
    exponential that returns NaN or a float whose sign bit is clear, they are
    in [exp_range]. *)
Section Likelihoods.
Context {E : @Elementary float B64_arith}.
Hypothesis np_exp_range : ∀ x : float, exp_range (np_exp x).

Lemma fun_LL_exp_range (sigma_y : float) (x_data y_noisy w : list float) (L : float) :
  fun_LL sigma_y x_data y_noisy w = Some L → exp_range L.
Proof using np_exp_range. intros [a ->]%fun_LL_is_exp. apply np_exp_range. Qed.

(** Every iteration of the loop on a well-shaped state is the accept-reject
    step at two likelihood values in [exp_range]. *)
Lemma mh_iteration_likelihoods (rs : RandomSource float) (sigma_y : float)
    (x_data y_noisy : list float) (R : list (list float)) (n : nat)
    (w_n : list (list float)) (g : rng rs) :
  length y_noisy = length x_data →
  length R = dim → Forall (λ row : list float, length row = dim) R →
  Forall (λ row : list float, length row = dim) w_n → (S n < length w_n)%nat →
  ∃ w_cur w_star L_star L_cur,
    w_n !! n = Some w_cur ∧ length w_cur = dim ∧ length w_star = dim
    ∧ exp_range L_star ∧ exp_range L_cur
    ∧ mh_iteration rs sigma_y x_data y_noisy R n (w_n, g)
      = mh_decide rs w_n n w_cur w_star L_star L_cur (draw_normals rs dim g).2.
Proof using np_exp_range.
  intros Hobs HR Hrows Hwn Hn.
  destruct (mh_iteration_eq rs sigma_y x_data y_noisy R n w_n g Hobs HR Hrows Hwn Hn)
    as (w_cur & w_star & L_star & L_cur & Hcur & Hlc & Hls & _ & HLs & HLc & Hit).
  exists w_cur, w_star, L_star, L_cur. repeat (split; [done|]).
  split; [by eapply fun_LL_exp_range|]. split; [by eapply fun_LL_exp_range|done].
Qed.
End Likelihoods.

Section Step.
Variable rs : RandomSource float.

Lemma accepts_at_one (L_star L_cur u : float) :
  mh_alpha L_star L_cur = one → unit_interval u → mh_accepts L_star L_cur u = true.
Proof. unfold mh_accepts. intros -> [_ Hu]. exact Hu. Qed.

Lemma decide_accept (w_n : list (list float)) (n : nat) (w_cur w_star : list float)
    (L_star L_cur : float) (g : rng rs) :
  mh_accepts L_star L_cur (random rs g).1 = true →
  (S n < length w_n)%nat → length w_cur = dim → length w_star = dim →
  mh_decide rs w_n n w_cur w_star L_star L_cur g
  = Some (<[S n := w_star]> w_n, (random rs g).2).
Proof. intros Hacc Hn Hc Hs. rewrite mh_decide_eq by done. by rewrite Hacc. Qed.

Lemma decide_reject (w_n : list (list float)) (n : nat) (w_cur w_star : list float)
    (L_star L_cur : float) (g : rng rs) :
  mh_accepts L_star L_cur (random rs g).1 = false →
  (S n < length w_n)%nat → length w_cur = dim → length w_star = dim →
  mh_decide rs w_n n w_cur w_star L_star L_cur g
  = Some (<[S n := w_cur]> w_n, (random rs g).2).
Proof. intros Hacc Hn Hc Hs. rewrite mh_decide_eq by done. by rewrite Hacc. Qed.


(** C5. When [L(w_star) >= L(w_n[n])] the acceptance probability is exactly
    [1] and the step accepts for every uniform draw [u] in [0, 1): slot
    [n+1] receives [w_star]. *)
Theorem monotone_plausibility (w_n : list (list float)) (n : nat)
    (w_cur w_star : list float) (L_star L_cur : float) (g : rng rs) :
  valid L_star → valid L_cur → exp_range L_star → exp_range L_cur →
  leb L_cur L_star = true →
  (S n < length w_n)%nat → length w_cur = dim → length w_star = dim →
  mh_alpha L_star L_cur = one
  ∧ (∀ u, unit_interval u → mh_accepts L_star L_cur u = true)
  ∧ (unit_interval (random rs g).1 →
     mh_decide rs w_n n w_cur w_star L_star L_cur g
     = Some (<[S n := w_star]> w_n, (random rs g).2)).
Proof.
  intros Hvs Hvc Hs Hc Hle Hn Hlc Hls.
  assert (mh_alpha L_star L_cur = one) as Halpha.
  { rewrite mh_alpha_unfold. by rewrite div_ge_one. }
  split; [done|]. split.
  - intros u Hu. by apply accepts_at_one.
  - intros Hu. apply decide_accept; try done. by apply accepts_at_one.
Qed.

(** C7. When the likelihood of the proposal is exactly zero and that of the
    current state is positive, [r = 0] and [alpha = 0], no uniform draw in
    [0, 1) is below [alpha], and the step repeats the current state in slot
    [n+1]. *)
Theorem underflow_rejects (w_n : list (list float)) (n : nat)
    (w_cur w_star : list float) (L_cur : float) (g : rng rs) :
  strictly_positive L_cur →
  (S n < length w_n)%nat → length w_cur = dim → length w_star = dim →
  mh_ratio zero L_cur = zero
  ∧ mh_alpha zero L_cur = zero
  ∧ (∀ u, unit_interval u → mh_accepts zero L_cur u = false)
  ∧ (unit_interval (random rs g).1 →
     mh_decide rs w_n n w_cur w_star zero L_cur g
     = Some (<[S n := w_cur]> w_n, (random rs g).2)).
Proof.
  intros Hpos Hn Hlc Hls.
  assert (mh_ratio zero L_cur = zero) as Hr by (by destruct L_cur as [[]|[]| |[] m e]).
  assert (mh_alpha zero L_cur = zero) as Halpha.
  { rewrite mh_alpha_unfold. change (div zero L_cur) with (mh_ratio zero L_cur).
    by rewrite Hr. }
  assert (∀ u, unit_interval u → mh_accepts zero L_cur u = false) as Hrej.
  { intros u Hu. unfold mh_accepts. rewrite Halpha. by apply unit_interval_not_neg. }
  repeat (split; [done|]).
  intros Hu. apply decide_reject; try done. by apply Hrej.
Qed.

(** C10. When the likelihood of the current state is exactly zero, the step
    raises nothing and accepts: [r] is NaN (from [0/0]) or [+inf] (from a
    positive [L(w_star)] over zero), [min(1, r)] is [1], every uniform draw
    in [0, 1) is below it, and slot [n+1] receives [w_star], whatever the
    likelihood of [w_star] is. *)
Theorem zero_current_accepts (w_n : list (list float)) (n : nat)
    (w_cur w_star : list float) (L_star : float) (g : rng rs) :
  exp_range L_star →
  (S n < length w_n)%nat → length w_cur = dim → length w_star = dim →
  (mh_ratio L_star zero = S754_nan ∨ mh_ratio L_star zero = S754_infinity false)
  ∧ mh_alpha L_star zero = one
  ∧ (∀ u, unit_interval u → mh_accepts L_star zero u = true)
  ∧ (unit_interval (random rs g).1 →
     mh_decide rs w_n n w_cur w_star L_star zero g
     = Some (<[S n := w_star]> w_n, (random rs g).2)).
Proof.
  intros Hs Hn Hlc Hls.
  assert (mh_ratio L_star zero = S754_nan ∨ mh_ratio L_star zero = S754_infinity false)
    as Hr.
  { destruct L_star as [s|s| |s m e]; simpl in Hs; subst; by (left + right). }
  assert (mh_alpha L_star zero = one) as Halpha.
  { rewrite mh_alpha_unfold. change (div L_star zero) with (mh_ratio L_star zero).
    by destruct Hr as [-> | ->]. }
  split; [done|]. split; [done|]. split.
  - intros u Hu. by apply accepts_at_one.
  - intros Hu. apply decide_accept; try done. by apply accepts_at_one.
Qed.

(** C8, as the code behaves. When the current state has a zero or
    non-finite likelihood, the step reports nothing: it returns normally,
    with the array at its length and slot [n+1] holding the proposal or the
    current state, and the loop goes on from there. *)
Theorem degenerate_state_continues (w_n : list (list float)) (n : nat)
    (w_cur w_star : list float) (L_star L_cur : float) (g : rng rs) :
  degenerate L_cur →
  (S n < length w_n)%nat → length w_cur = dim → length w_star = dim →
  ∃ w_n' g',
    mh_decide rs w_n n w_cur w_star L_star L_cur g = Some (w_n', g')
    ∧ length w_n' = length w_n
    ∧ (w_n' !! S n = Some w_star ∨ w_n' !! S n = Some w_cur).
Proof.
  intros _ Hn Hlc Hls. rewrite mh_decide_eq by done.
  eexists _, _. split; [done|]. split; [apply length_insert|].
  rewrite list_lookup_insert_eq by done.
  destruct (mh_accepts _ _ _); by (left + right).
Qed.
End Step.
End Acceptance.

(** ** The likelihood in binary64 *)

Module Likelihood.
Import B64.

Lemma sub_nan_r (x : float) : sub x S754_nan = S754_nan.
Proof. by destruct x. Qed.

Lemma mul_nan_r (x : float) : mul x S754_nan = S754_nan.
Proof. by destruct x. Qed.

Section Value.
Context {E : @Elementary float B64_arith}.
Hypothesis np_exp_range : ∀ x : float, exp_range (np_exp x).

End Value.

(** With an elementary library that has the values numpy has at these
    points ([sin(inf)] and [exp(NaN)] are NaN, a sum with a NaN entry is
    NaN), the likelihood of the finite vector [[5, 2^1023]] on the grid of
    the notebook is NaN: [2^1023 * 10] overflows to [+inf] at the last point
    of the grid. *)
Section NotANumber.
Context {E : @Elementary float B64_arith}.
Hypothesis np_pi_value : np_pi = pi.
Hypothesis np_sin_inf : np_sin (F := float) (S754_infinity false) = S754_nan.
Hypothesis np_sum_nan : ∀ l : list float, S754_nan ∈ l → np_sum l = S754_nan.
Hypothesis np_exp_nan : np_exp (F := float) S754_nan = S754_nan.

Lemma model_at_overflow :
  model_at (of_int 5) Demo.two_to_1023 (of_int 10) = S754_nan.
Proof using np_pi_value np_sin_inf.
  unfold model_at. rewrite np_pi_value.
  set (angle := fmul (fmul _ _) (fdiv pi _)).
  assert (angle = S754_infinity false) as -> by (vm_compute; reflexivity).
  set (line := fmul Demo.two_to_1023 _).
  assert (line = S754_infinity false) as -> by (vm_compute; reflexivity).
  rewrite np_sin_inf. done.
Qed.

Lemma fun_LL_overflow (y_noisy : list float) :
  length y_noisy = Notebook.nx_data →
  fun_LL Notebook.sigma_y Notebook.x_data y_noisy [of_int 5; Demo.two_to_1023]
  = Some S754_nan.
Proof using np_pi_value np_sin_inf np_sum_nan np_exp_nan.
  intros Hy.
  assert (length (Notebook.x_data (F := float)) = Notebook.nx_data) as Hx
    by (vm_compute; reflexivity).
  unfold fun_LL, increasing_sinus_model. cbn [lookup list_lookup mbind option_bind].
  unfold vsub. rewrite np_binop_same_shape by (rewrite length_fmap; lia).
  cbn [mbind option_bind]. do 2 f_equal.
  rewrite np_sum_nan; [by rewrite mul_nan_r|].
  destruct (lookup_lt_is_Some_2 y_noisy 199) as [y Hy199];
    [rewrite Hy; unfold Notebook.nx_data; lia|].
  apply (list_elem_of_lookup_2 _ 199). unfold vsquare.
  rewrite list_lookup_fmap, lookup_zip_with, Hy199, list_lookup_fmap.
  assert (Notebook.x_data (F := float) !! 199 = Some (of_int 10)) as ->
    by (vm_compute; reflexivity).
  cbn [fmap option_fmap option_map mbind option_bind].
  rewrite model_at_overflow. change fsub with sub. rewrite sub_nan_r. done.
Qed.
End NotANumber.
End Likelihood.

(** ** The Cholesky factor and the proposal in binary64 *)

Module Proposal.
Import B64.

End Proposal.

(** ** The one generator behind both kinds of draws *)

Section SharedGenerator.
Context {F : Type} `{Elementary F}.
Variable raw : nat → F.
Variable box_muller : F → F → F * F.
Variable sigma_y : F.
Variables x_data y_noisy : list F.

Local Abbreviation at_position k := {| consumed := k; gauss_next := None |}.

Lemma py_draw_normals (k : nat) :
  draw_normals (py_source raw box_muller) dim (at_position k)
  = ([fadd (of_int 0) (fmul (box_muller (raw k) (raw (S k))).1 (of_int 1));
      fadd (of_int 0) (fmul (box_muller (raw k) (raw (S k))).2 (of_int 1))],
     at_position (S (S k))).
Proof.
  unfold dim. cbn [draw_normals gauss py_source].
  unfold py_gauss at 1. cbn [gauss_next consumed].
  destruct (box_muller (raw k) (raw (S k))) as [z z'].
  unfold py_gauss. by cbn [gauss_next consumed fst snd].
Qed.

(** C9, as the code behaves. Both kinds of draws come from the one
    generator of the [random] module, one after the other: from a generator
    at position [k] of its output stream with no pending variate, the [dim]
    normal draws of an iteration are the pair made from outputs [k] and
    [k+1], the uniform draw of the same iteration is output [k+2], and the
    iteration leaves the generator at position [k+3]. *)
Theorem shared_generator (R w_n : list (list F)) (n k : nat) :
  (draw_normals (py_source raw box_muller) dim (at_position k)).1
  = [fadd (of_int 0) (fmul (box_muller (raw k) (raw (S k))).1 (of_int 1));
     fadd (of_int 0) (fmul (box_muller (raw k) (raw (S k))).2 (of_int 1))]
  ∧ random (py_source raw box_muller)
      (draw_normals (py_source raw box_muller) dim (at_position k)).2
    = (raw (S (S k)), at_position (S (S (S k))))
  ∧ match mh_iteration (py_source raw box_muller) sigma_y x_data y_noisy R n
            (w_n, at_position k) with
    | Some (_, g') => g' = at_position (S (S (S k)))
    | None => True
    end.
Proof.
  rewrite py_draw_normals. split; [done|]. split; [done|].
  unfold mh_iteration. rewrite py_draw_normals.
  destruct (w_n !! n) as [w_cur|]; cbn [mbind option_bind]; [|done].
  destruct (proposal R w_cur _) as [w_star|]; cbn [mbind option_bind]; [|done].
  destruct (fun_LL sigma_y x_data y_noisy w_star) as [L_star|];
    cbn [mbind option_bind]; [|done].
  destruct (fun_LL sigma_y x_data y_noisy w_cur) as [L_cur|];
    cbn [mbind option_bind]; [|done].
  destruct (mh_decide _ w_n n w_cur w_star L_star L_cur _) as [[w_n' g']|] eqn:Hstep;
    [|done].
  by apply mh_decide_inv in Hstep as [-> _].
Qed.
End SharedGenerator.

(** ** The stand-ins of the concrete run *)

Module Demo_facts.
Import B64.

Lemma exp_stand_in_range (x : float) : exp_range (Demo.exp_stand_in x).
Proof.
  destruct x as [s|s| |s m e]; cbn.
  - destruct (ltb _ _); reflexivity.
  - destruct s; reflexivity.
  - exact I.
  - destruct (ltb _ _); reflexivity.
Qed.

Lemma foldl_add_nan (l : list float) : foldl add S754_nan l = S754_nan.
Proof. induction l as [|x l IH]; [done|]. cbn [foldl]. exact IH. Qed.

Lemma sum_left_to_right_nan (l : list float) :
  S754_nan ∈ l → Demo.sum_left_to_right l = S754_nan.
Proof.
  unfold Demo.sum_left_to_right. generalize zero.
  induction l as [|x l IH]; intros acc Hin.
  - by apply elem_of_nil in Hin.
  - cbn [foldl]. apply elem_of_cons in Hin as [<-|Hin].
    + assert (add acc S754_nan = S754_nan) as -> by (by destruct acc).
      apply foldl_add_nan.
    + by apply IH.
Qed.
End Demo_facts.

(** ** Concrete runs *)

Module Checks.
Import B64.

(** The factor of [proposal_cov] in binary64: [sqrt(0.05)] and [0.01] on the
    diagonal. *)
Example cholesky_proposal_cov_b64 :
  cholesky (F := float) proposal_cov
  = Some [[S754_finite false 8056283928194521 (-55); zero];
          [zero; S754_finite false 5764607523034235 (-59)]].
Proof. by vm_compute. Qed.

(** On a matrix that is not diagonal the factor is upper triangular, as
    scipy's default [lower=False] asks: [[4, 2], [2, 5]] gives
    [[2, 1], [0, 2]]. *)
Example cholesky_is_upper :
  cholesky (F := float) [[of_int 4; of_int 2]; [of_int 2; of_int 5]]
  = Some [[of_int 2; of_int 1]; [of_int 0; of_int 2]].
Proof. by vm_compute. Qed.

(** [0/0] is NaN and [min(1, NaN)] is [1]. *)
Example alpha_of_nan :
  mh_ratio zero zero = S754_nan ∧ mh_alpha zero zero = one.
Proof. by vm_compute. Qed.

(** [0.25/0.5] is [0.5], below one, and is the acceptance probability. *)
Example alpha_of_half :
  mh_alpha Demo.quarter Demo.half = Demo.half.
Proof. by vm_compute. Qed.

(** C8 as stated fails: with a current state of likelihood zero and a
    proposal of likelihood zero, [r] is NaN, and the step returns normally
    and stores the proposal. *)
Lemma degenerate_state_not_raised :
  degenerate zero
  ∧ mh_ratio zero zero = S754_nan
  ∧ mh_decide Demo.source Demo.w_n 0 Demo.w_cur Demo.w_star zero zero Demo.seed
    = Some ([Demo.w_cur; Demo.w_star], {| consumed := 1; gauss_next := None |})
  ∧ ¬ degenerate_state_raises Demo.source.
Proof.
  split; [exact I|]. split; [by vm_compute|]. split; [by vm_compute|].
  intros Hraise.
  specialize (Hraise Demo.w_n 0%nat Demo.w_cur Demo.w_star zero zero Demo.seed I).
  vm_compute in Hraise. discriminate Hraise.
Qed.

(** C9 as stated fails: a normal draw moves the stream the uniform draw
    reads from. *)
Lemma streams_not_independent :
  (random Demo.source (gauss Demo.source (of_int 0) (of_int 1) Demo.seed).2).1
  = Demo.raw 2
  ∧ (random Demo.source Demo.seed).1 = Demo.raw 0
  ∧ Demo.raw 2 ≠ Demo.raw 0
  ∧ ¬ independent_streams Demo.source.
Proof.
  split; [by vm_compute|]. split; [by vm_compute|].
  assert (Demo.raw 2 ≠ Demo.raw 0) as Hne by (vm_compute; discriminate).
  split; [done|].
  intros Hind. specialize (Hind (of_int 0) (of_int 1) Demo.seed).
  apply Hne. vm_compute in Hind. vm_compute. exact Hind.
Qed.


End Checks.

(** ** The theorems at concrete inputs *)

Module Witnesses.

Lemma trajectory_length_witness :
  ∃ w_n : list (list B64.float),
    mcmc (H0 := Demo.elementary) Demo.source (lit 15 10) [of_int 0; of_int 1]
      [of_int 1; of_int 2] 3 Demo.w_cur Demo.seed
    = Some (w_n, generator_at Demo.source 3 Demo.seed)
    ∧ length w_n = 4
    ∧ w_n !! 0 = Some Demo.w_cur
    ∧ ∃ w_star L_star L_cur,
        proposal Demo.factor Demo.w_cur (draw_normals Demo.source dim Demo.seed).1
        = Some w_star
        ∧ fun_LL (H0 := Demo.elementary) (lit 15 10) [of_int 0; of_int 1]
            [of_int 1; of_int 2] w_star = Some L_star
        ∧ fun_LL (H0 := Demo.elementary) (lit 15 10) [of_int 0; of_int 1]
            [of_int 1; of_int 2] Demo.w_cur = Some L_cur
        ∧ w_n !! 1
          = Some (if mh_accepts L_star L_cur
                       (random Demo.source (draw_normals Demo.source dim Demo.seed).2).1
                  then w_star else Demo.w_cur).
Proof.
  destruct (trajectory_length (H0 := Demo.elementary) Demo.source (lit 15 10)
              [of_int 0; of_int 1] [of_int 1; of_int 2] 3 Demo.w_cur Demo.seed _
              eq_refl eq_refl Checks.cholesky_proposal_cov_b64)
    as (w_n & Hrun & Hlen & Hfirst & Hsteps).
  exists w_n. split; [exact Hrun|]. split; [exact Hlen|]. split; [exact Hfirst|].
  destruct (Hsteps 0%nat) as (w_cur & w_star & L_star & L_cur & Hcur & _ & Hprop & HLs & HLc & Hnext);
    [lia|].
  rewrite Hfirst in Hcur. injection Hcur as <-.
  exists w_star, L_star, L_cur.
  split; [exact Hprop|]. split; [exact HLs|]. split; [exact HLc|exact Hnext].
Defined.



Lemma monotone_plausibility_witness :
  B64.leb Demo.quarter Demo.half = true
  ∧ mh_alpha Demo.half Demo.quarter = B64.one
  ∧ mh_decide Demo.source Demo.w_n 0 Demo.w_cur Demo.w_star Demo.half Demo.quarter Demo.seed
    = Some (<[1 := Demo.w_star]> Demo.w_n, (random Demo.source Demo.seed).2).
Proof.
  split; [reflexivity|].
  destruct (Acceptance.monotone_plausibility Demo.source Demo.w_n 0 Demo.w_cur
              Demo.w_star Demo.half Demo.quarter Demo.seed)
    as (Halpha & _ & Hstep);
    [reflexivity|reflexivity|reflexivity|reflexivity|reflexivity
    |vm_compute; lia|reflexivity|reflexivity|].
  split; [exact Halpha|]. apply Hstep. split; reflexivity.
Defined.

Lemma rejection_fallback_witness :
  mh_decide Demo.source Demo.w_n 0 Demo.w_cur Demo.w_star B64.zero Demo.half Demo.seed
  = Some ([Demo.w_cur; Demo.w_cur], {| consumed := 1; gauss_next := None |})
  ∧ [Demo.w_cur; Demo.w_cur] !! 1 = Demo.w_n !! 0
  ∧ length [Demo.w_cur; Demo.w_cur] = length Demo.w_n.
Proof.
  assert (mh_decide Demo.source Demo.w_n 0 Demo.w_cur Demo.w_star B64.zero Demo.half
            Demo.seed
          = Some ([Demo.w_cur; Demo.w_cur], {| consumed := 1; gauss_next := None |}))
    as Hstep by (vm_compute; reflexivity).
  split; [exact Hstep|].
  destruct (rejection_fallback Demo.source Demo.w_n 0 Demo.w_cur Demo.w_star B64.zero
              Demo.half Demo.seed _ _ eq_refl eq_refl Hstep) as (Hrej & _ & Hlen).
  split; [apply Hrej; reflexivity|exact Hlen].
Defined.

Lemma underflow_rejects_witness :
  B64.strictly_positive Demo.half
  ∧ mh_alpha B64.zero Demo.half = B64.zero
  ∧ mh_decide Demo.source Demo.w_n 0 Demo.w_cur Demo.w_star B64.zero Demo.half Demo.seed
    = Some (<[1 := Demo.w_cur]> Demo.w_n, (random Demo.source Demo.seed).2).
Proof.
  split; [exact I|].
  destruct (Acceptance.underflow_rejects Demo.source Demo.w_n 0 Demo.w_cur Demo.w_star
              Demo.half Demo.seed)
    as (_ & Halpha & _ & Hstep); [exact I|vm_compute; lia|reflexivity|reflexivity|].
  split; [exact Halpha|]. apply Hstep. split; reflexivity.
Defined.

Lemma degenerate_state_continues_witness :
  B64.degenerate B64.zero
  ∧ ∃ w_n' g',
      mh_decide Demo.source Demo.w_n 0 Demo.w_cur Demo.w_star Demo.half B64.zero Demo.seed
      = Some (w_n', g')
      ∧ length w_n' = length Demo.w_n.
Proof.
  split; [exact I|].
  destruct (Acceptance.degenerate_state_continues Demo.source Demo.w_n 0 Demo.w_cur
              Demo.w_star Demo.half B64.zero Demo.seed)
    as (w_n' & g' & Hstep & Hlen & _); [exact I|vm_compute; lia|reflexivity|reflexivity|].
  exists w_n', g'. split; [exact Hstep|exact Hlen].
Defined.

Lemma zero_current_accepts_witness :
  B64.exp_range Demo.half
  ∧ mh_alpha Demo.half B64.zero = B64.one
  ∧ mh_decide Demo.source Demo.w_n 0 Demo.w_cur Demo.w_star Demo.half B64.zero Demo.seed
    = Some (<[1 := Demo.w_star]> Demo.w_n, (random Demo.source Demo.seed).2).
Proof.
  split; [reflexivity|].
  destruct (Acceptance.zero_current_accepts Demo.source Demo.w_n 0 Demo.w_cur
              Demo.w_star Demo.half Demo.seed)
    as (_ & Halpha & _ & Hstep); [reflexivity|vm_compute; lia|reflexivity|reflexivity|].
  split; [exact Halpha|]. apply Hstep. split; reflexivity.
Defined.
End Witnesses.

(** * Further properties of the notebook's code *)

(** ** The acceptance rule in binary64, at every float *)

Module FloatAcceptance.
Import B64 B64_facts.

(** X9. Whatever the two likelihood values are, NaN and infinities included,
    the acceptance probability is never NaN and never above one. *)
Theorem alpha_never_nan (L_star L_cur : float) :
  mh_alpha L_star L_cur ≠ S754_nan ∧ leb (mh_alpha L_star L_cur) one = true.
Proof.
  rewrite mh_alpha_unfold.
  destruct (ltb (div L_star L_cur) one) eqn:Hlt; [|done].
  split; [|by apply ltb_leb].
  intros Hnan. by rewrite Hnan in Hlt.
Qed.

Lemma div_nan (L_star L_cur : float) :
  L_star = S754_nan ∨ L_cur = S754_nan → div L_star L_cur = S754_nan.
Proof. intros [-> | ->]; [done|]. by destruct L_star. Qed.

(** X10. A NaN likelihood, of the proposal or of the current state, makes the
    ratio NaN and the acceptance probability one: the proposal is accepted
    for every draw in [0, 1). *)
Theorem nan_likelihood_accepts (L_star L_cur : float) :
  L_star = S754_nan ∨ L_cur = S754_nan →
  mh_ratio L_star L_cur = S754_nan
  ∧ mh_alpha L_star L_cur = one
  ∧ ∀ u, unit_interval u → mh_accepts L_star L_cur u = true.
Proof.
  intros Hnan. pose proof (div_nan L_star L_cur Hnan) as Hr.
  assert (mh_alpha L_star L_cur = one) as Halpha
    by (rewrite mh_alpha_unfold; by rewrite Hr).
  split; [done|]. split; [done|].
  intros u [_ Hu]. unfold mh_accepts. by rewrite Halpha.
Qed.

(** X11. From a state of positive likelihood the chain never moves to a state of
    zero likelihood: if the likelihood of the proposal is a result of
    [np.exp] other than NaN, the state kept for slot [n+1], the proposal when
    accepted and the current state otherwise, has a positive likelihood. *)
Theorem positive_likelihood_kept (L_star L_cur u : float) :
  strictly_positive L_cur → exp_range L_star → L_star ≠ S754_nan →
  unit_interval u →
  strictly_positive (if mh_accepts L_star L_cur u then L_star else L_cur).
Proof.
  intros Hcur Hstar Hnan Hu.
  destruct (mh_accepts L_star L_cur u) eqn:Hacc; [|done].
  destruct L_star as [s|s| |s m e]; simpl in Hstar; subst; try done.
  exfalso. unfold mh_accepts in Hacc.
  assert (mh_alpha zero L_cur = zero) as Halpha
    by (by destruct L_cur as [[]|[]| |[] m e]).
  change (S754_zero false) with zero in Hacc. rewrite Halpha in Hacc.
  by rewrite unit_interval_not_neg in Hacc.
Qed.
End FloatAcceptance.

(** ** The loop as a whole *)

Section Loop.
Context {F : Type} `{Elementary F}.
Local Abbreviation vector := (list F).
Local Abbreviation matrix := (list (list F)).
Variable rs : RandomSource F.
Variable sigma_y : F.
Variables x_data y_noisy : vector.

Lemma mh_loop_app (R : matrix) (ns1 ns2 : list nat) (st : matrix * rng rs) :
  mh_loop rs sigma_y x_data y_noisy R (ns1 ++ ns2) st
  = mh_loop rs sigma_y x_data y_noisy R ns1 st
    ≫= mh_loop rs sigma_y x_data y_noisy R ns2.
Proof.
  revert st. induction ns1 as [|n ns1 IH]; intros st; [done|].
  cbn [app mh_loop].
  destruct (mh_iteration rs sigma_y x_data y_noisy R n st) as [st'|];
    cbn [mbind option_bind]; [apply IH|done].
Qed.

(** X12. The iterations [a, ..., a+k-1] of the loop write the rows
    [a+1, ..., a+k] of [w_n] and no other: the rows up to [a] and the rows
    after [a+k], still as [np.zeros] left them, are unchanged, and the array
    keeps its length. *)
Theorem loop_writes_its_rows (R : matrix) (k a : nat) (w_n : matrix) (g : rng rs)
    (w_n' : matrix) (g' : rng rs) :
  mh_loop rs sigma_y x_data y_noisy R (seq a k) (w_n, g) = Some (w_n', g') →
  length w_n' = length w_n
  ∧ ∀ i, i ≤ a ∨ a + k < i → w_n' !! i = w_n !! i.
Proof.
  revert a w_n g. induction k as [|k IH]; intros a w_n g; cbn [seq mh_loop].
  - intros [= <- <-]. done.
  - destruct (mh_iteration rs sigma_y x_data y_noisy R a (w_n, g)) as [[w1 g1]|] eqn:Hit;
      cbn [mbind option_bind]; [|done].
    intros Hloop. apply mh_iteration_frame in Hit as [Hframe Hlen1].
    apply IH in Hloop as [Hlen Hrest].
    split; [congruence|].
    intros i Hi. rewrite Hrest by lia. apply Hframe. lia.
Qed.

(** An iteration reads row [n] of the array and nothing else of it: on two
    arrays with the same row [n] it writes the same row [n+1] and leaves the
    generator in the same state. *)
Lemma mh_iteration_agree (R : matrix) (n : nat) (w_n v_n : matrix) (g : rng rs) :
  length y_noisy = length x_data →
  length R = dim → Forall (λ row : vector, length row = dim) R →
  Forall (λ row : vector, length row = dim) w_n → S n < length w_n →
  S n < length v_n → v_n !! n = w_n !! n →
  ∃ row g', length row = dim
    ∧ mh_iteration rs sigma_y x_data y_noisy R n (w_n, g) = Some (<[S n := row]> w_n, g')
    ∧ mh_iteration rs sigma_y x_data y_noisy R n (v_n, g) = Some (<[S n := row]> v_n, g').
Proof.
  intros Hobs HR Hrows Hwn Hn Hvn Hrow.
  destruct (mh_iteration_eq rs sigma_y x_data y_noisy R n w_n g Hobs HR Hrows Hwn Hn)
    as (w_cur & w_star & L_star & L_cur & Hcur & Hlc & Hls & Hprop & HLs & HLc & Hit).
  rewrite mh_decide_eq in Hit by done.
  eexists _, _. split; [|split; [exact Hit|]].
  { by destruct (mh_accepts _ _ _). }
  unfold mh_iteration. destruct (draw_normals rs dim g) as [z g1]. cbn [fst snd] in *.
  rewrite Hrow, Hcur. cbn [mbind option_bind]. rewrite Hprop. cbn [mbind option_bind].
  rewrite HLs. cbn [mbind option_bind]. rewrite HLc. cbn [mbind option_bind].
  by rewrite mh_decide_eq.
Qed.

Lemma mh_loop_agree (R : matrix) (k a : nat) (w_n v_n : matrix) (g : rng rs) :
  length y_noisy = length x_data →
  length R = dim → Forall (λ row : vector, length row = dim) R →
  Forall (λ row : vector, length row = dim) w_n → a + k < length w_n →
  a + k < length v_n → (∀ i, i ≤ a → v_n !! i = w_n !! i) →
  ∃ w_n' v_n' g',
    mh_loop rs sigma_y x_data y_noisy R (seq a k) (w_n, g) = Some (w_n', g')
    ∧ mh_loop rs sigma_y x_data y_noisy R (seq a k) (v_n, g) = Some (v_n', g')
    ∧ length w_n' = length w_n
    ∧ Forall (λ row : vector, length row = dim) w_n'
    ∧ ∀ i, i ≤ a + k → v_n' !! i = w_n' !! i.
Proof.
  intros Hobs HR Hrows. revert a w_n v_n g.
  induction k as [|k IH]; intros a w_n v_n g Hwn Hlen Hlenv Hagree; cbn [seq mh_loop].
  - exists w_n, v_n, g. repeat (split; [done|]). intros i Hi. apply Hagree. lia.
  - destruct (mh_iteration_agree R a w_n v_n g) as (row & g1 & Hrow & -> & ->);
      try done; try lia.
    { apply Hagree. lia. }
    cbn [mbind option_bind].
    destruct (IH (S a) (<[S a := row]> w_n) (<[S a := row]> v_n) g1)
      as (w_n' & v_n' & g' & -> & -> & Hlen' & Hrows' & Hagree').
    { by apply insert_rows_shape. }
    { rewrite length_insert. lia. }
    { rewrite length_insert. lia. }
    { intros i Hi. destruct (decide (i = S a)) as [->|Hne].
      - rewrite !list_lookup_insert_eq by lia. done.
      - rewrite !list_lookup_insert_ne by lia. apply Hagree. lia. }
    exists w_n', v_n', g'. rewrite length_insert in Hlen'.
    repeat (split; [done|]). intros i Hi. apply Hagree'. lia.
Qed.

(** X13. Running more iterations extends the trajectory and does not change what
    came before: from the same start and the same generator state, the rows
    [0..k] of a run of [n_it >= k] iterations are the rows of a run of [k]
    iterations. *)
Theorem longer_run_extends_shorter (k n_it : nat) (w_MLE : vector) (g : rng rs)
    (R : matrix) :
  k ≤ n_it →
  length y_noisy = length x_data → length w_MLE = dim →
  cholesky proposal_cov = Some R →
  ∃ w_k g_k w_n g_n,
    mcmc rs sigma_y x_data y_noisy k w_MLE g = Some (w_k, g_k)
    ∧ mcmc rs sigma_y x_data y_noisy n_it w_MLE g = Some (w_n, g_n)
    ∧ length w_k = k + 1 ∧ length w_n = n_it + 1
    ∧ ∀ i, i ≤ k → w_n !! i = w_k !! i.
Proof.
  intros Hk Hobs Hw HR.
  destruct (cholesky_proposal_cov_shape R HR) as [HlenR Hrows].
  destruct (mcmc_unfold rs sigma_y x_data y_noisy k w_MLE g R Hw HR)
    as (-> & Hlenk & Hrowsk).
  destruct (mcmc_unfold rs sigma_y x_data y_noisy n_it w_MLE g R Hw HR)
    as (-> & Hlenn & Hrowsn).
  assert (seq 0 n_it = seq 0 k ++ seq k (n_it - k)) as Hsplit.
  { replace n_it with (k + (n_it - k)) at 1 by lia. apply seq_app. }
  rewrite Hsplit, mh_loop_app.
  set (A := <[0 := w_MLE]> (np_zeros2 (k + 1) dim)) in *.
  set (B := <[0 := w_MLE]> (np_zeros2 (n_it + 1) dim)) in *.
  destruct (mh_loop_agree R k 0 A B g) as (w_k & B1 & g_k & HA & HB & HlenA & _ & Hagree);
    try done; try lia.
  { intros i Hi. assert (i = 0) as -> by lia. subst A B.
    rewrite !list_lookup_insert_eq; [done| |]; unfold np_zeros2;
      rewrite length_replicate; lia. }
  rewrite HA, HB. cbn [mbind option_bind].
  assert (length B1 = n_it + 1 ∧ Forall (λ row : vector, length row = dim) B1)
    as [HlenB1 HrowsB1].
  { destruct (mh_loop_spec rs sigma_y x_data y_noisy R k 0 B g)
      as (B1' & g1' & HB' & Hl & _); try done; try lia.
    rewrite HB in HB'. injection HB' as <- <-. split; [congruence|].
    destruct (mh_loop_agree R k 0 B B g) as (B2 & _ & g2 & HB2 & _ & _ & Hr & _);
      try done; try lia.
    rewrite HB in HB2. by injection HB2 as <- <-. }
  destruct (mh_loop_spec rs sigma_y x_data y_noisy R (n_it - k) k B1 g_k)
    as (w_n & g_n & Hrun & Hlen & Hkeep & _); try done; try lia.
  exists w_k, g_k, w_n, g_n. split; [done|]. split; [done|].
  split; [congruence|]. split; [congruence|].
  intros i Hi. rewrite Hkeep by lia. apply Hagree. lia.
Qed.
End Loop.

(** ** How the run consumes the generator *)

Section StreamAccounting.
Context {F : Type} `{Elementary F}.
Variable raw : nat → F.
Variable box_muller : F → F → F * F.
Variable sigma_y : F.
Variables x_data y_noisy : list F.

Local Abbreviation source := (py_source raw box_muller).
Local Abbreviation at_position k := {| consumed := k; gauss_next := None |}.

Lemma mh_iteration_position (R w_n : list (list F)) (n k : nat)
    (w_n' : list (list F)) (g' : py_state) :
  mh_iteration source sigma_y x_data y_noisy R n (w_n, at_position k) = Some (w_n', g') →
  g' = at_position (k + 3).
Proof.
  unfold mh_iteration. rewrite py_draw_normals.
  destruct (w_n !! n) as [w_cur|]; cbn [mbind option_bind]; [|done].
  destruct (proposal R w_cur _) as [w_star|]; cbn [mbind option_bind]; [|done].
  destruct (fun_LL sigma_y x_data y_noisy w_star) as [L_star|];
    cbn [mbind option_bind]; [|done].
  destruct (fun_LL sigma_y x_data y_noisy w_cur) as [L_cur|];
    cbn [mbind option_bind]; [|done].
  intros Hstep. apply mh_decide_inv in Hstep as [-> _].
  cbn [random py_source py_random consumed gauss_next snd]. f_equal; lia.
Qed.

(** X14. A run of [k] iterations takes exactly [3 k] outputs from the one stream
    of the generator, two for the pair of normal draws and one for the
    uniform draw of each iteration, and leaves no normal variate pending. *)
Theorem loop_consumes_three_per_iteration (R : list (list F)) (k a p : nat)
    (w_n w_n' : list (list F)) (g' : py_state) :
  mh_loop source sigma_y x_data y_noisy R (seq a k) (w_n, at_position p) = Some (w_n', g') →
  g' = at_position (p + 3 * k).
Proof.
  revert a p w_n. induction k as [|k IH]; intros a p w_n; cbn [seq mh_loop].
  - intros [= <- <-]. f_equal; lia.
  - destruct (mh_iteration source sigma_y x_data y_noisy R a (w_n, at_position p))
      as [[w1 g1]|] eqn:Hit; cbn [mbind option_bind]; [|done].
    apply mh_iteration_position in Hit as ->.
    intros Hloop. apply IH in Hloop as ->. f_equal; lia.
Qed.

Lemma draw_noise_pair (k p : nat) :
  (Notebook.draw_noise source (S (S k)) (at_position p)).2
  = (Notebook.draw_noise source k (at_position (S (S p)))).2.
Proof.
  cbn [Notebook.draw_noise gauss py_source].
  unfold py_gauss at 1. cbn [gauss_next consumed].
  destruct (box_muller (raw p) (raw (S p))) as [z z'].
  unfold py_gauss at 1. cbn [gauss_next consumed].
  by destruct (Notebook.draw_noise source k _) as [zs g2].
Qed.

(** X15. [random.gauss] makes its variates in pairs.  An even number [2 m] of
    noise draws takes [2 m] outputs from the stream and leaves nothing
    pending; an odd number [2 m + 1] takes [2 m + 2] outputs and leaves the
    second variate of the last pair pending for the next call of [gauss]. *)
Theorem noise_draws_come_in_pairs (m p : nat) :
  (Notebook.draw_noise source (2 * m) (at_position p)).2 = at_position (p + 2 * m)
  ∧ ∃ z, (Notebook.draw_noise source (2 * m + 1) (at_position p)).2
         = {| consumed := p + 2 * m + 2; gauss_next := Some z |}.
Proof.
  revert p. induction m as [|m IH]; intros p.
  - split.
    + change (2 * 0) with 0. cbn [Notebook.draw_noise snd]. f_equal; lia.
    + change (2 * 0 + 1) with 1. cbn [Notebook.draw_noise gauss py_source].
      unfold py_gauss. cbn [gauss_next consumed].
      destruct (box_muller (raw p) (raw (S p))) as [z z'].
      exists z'. cbn [snd]. f_equal; lia.
  - replace (2 * S m) with (S (S (2 * m))) by lia.
    replace (S (S (2 * m)) + 1) with (S (S (2 * m + 1))) by lia.
    rewrite !draw_noise_pair. destruct (IH (S (S p))) as [Heven [z Hodd]].
    split.
    + rewrite Heven. f_equal; lia.
    + exists z. rewrite Hodd. f_equal; lia.
Qed.
End StreamAccounting.

(** ** The screening of the posterior on a grid *)

Section ScreeningLoop.
Context {F : Type} `{Elementary F}.
Variable sigma_y : F.
Variables x_data y_noisy : list F.
Hypothesis observations_shape : length y_noisy = length x_data.

Local Abbreviation value_at := (fun_LL_value sigma_y x_data y_noisy).

Lemma fun_LL_two (a b : F) :
  fun_LL sigma_y x_data y_noisy [a; b] = Some (value_at a b).
Proof using observations_shape.
  unfold fun_LL. cbn [increasing_sinus_model lookup list_lookup mbind option_bind].
  unfold vsub. by rewrite np_binop_same_shape by (by rewrite length_fmap).
Qed.

Lemma screen_row_fills (i : nat) (param_i : F) (l : list F) (a : nat)
    (row : list F) (f_post : list (list F)) :
  f_post !! i = Some row → length row = a + length l →
  screen_row sigma_y x_data y_noisy i param_i (zip (seq a (length l)) l) f_post
  = Some (<[i := take a row ++ (value_at param_i <$> l)]> f_post).
Proof using observations_shape.
  revert a row f_post. induction l as [|p l IH]; intros a row f_post Hrow Hlen.
  - cbn [length seq zip zip_with screen_row fmap list_fmap].
    rewrite app_nil_r, take_ge by (simpl in Hlen; lia).
    by rewrite list_insert_id.
  - cbn [length seq zip zip_with screen_row]. rewrite fun_LL_two.
    cbn [mbind option_bind]. unfold set_entry. rewrite Hrow. cbn [mbind option_bind].
    rewrite decide_True by (simpl in Hlen; lia). cbn [mbind option_bind].
    change (zip_with pair (seq (S a) (length l)) l) with (zip (seq (S a) (length l)) l).
    rewrite (IH (S a) (<[a := value_at param_i p]> row)).
    + rewrite list_insert_insert_eq. f_equal. f_equal.
      rewrite (take_S_r _ _ (value_at param_i p))
        by (apply list_lookup_insert_eq; simpl in Hlen; lia).
      rewrite take_insert_ge by lia. by rewrite <- app_assoc.
    + apply list_lookup_insert_eq. by eapply lookup_lt_Some.
    + rewrite length_insert. simpl in Hlen. lia.
Qed.

Lemma screen_rows_fills (vec_param_j : list F) (l : list F) (a : nat)
    (f_post : list (list F)) :
  length f_post = a + length l →
  Forall (λ row : list F, length row = length vec_param_j) f_post →
  screen_rows sigma_y x_data y_noisy (zip (seq a (length l)) l) vec_param_j f_post
  = Some (take a f_post ++ ((λ param_i, value_at param_i <$> vec_param_j) <$> l)).
Proof using observations_shape.
  revert a f_post. induction l as [|p l IH]; intros a f_post Hlen Hrows.
  - cbn [length seq zip zip_with screen_rows fmap list_fmap].
    by rewrite app_nil_r, take_ge by (simpl in Hlen; lia).
  - cbn [length seq zip zip_with screen_rows].
    destruct (lookup_lt_is_Some_2 f_post a) as [row Hrow]; [simpl in Hlen; lia|].
    assert (length row = length vec_param_j) as Hrowlen
      by (by eapply (Forall_lookup_1 _ _ _ _ Hrows)).
    unfold np_ndenumerate. rewrite (screen_row_fills a p vec_param_j 0 row f_post) by done.
    cbn [mbind option_bind take app].
    change (zip_with pair (seq (S a) (length l)) l) with (zip (seq (S a) (length l)) l).
    rewrite IH.
    + f_equal.
      rewrite (take_S_r _ _ (value_at p <$> vec_param_j))
        by (apply list_lookup_insert_eq; by eapply lookup_lt_Some).
      rewrite take_insert_ge by lia. by rewrite <- app_assoc.
    + rewrite length_insert. simpl in Hlen. lia.
    + apply Forall_insert; [done|]. rewrite length_app, length_fmap. by simpl.
Qed.

(** X18. The two loops of the screening fill the whole table: they do not fail,
    the table has one row per value of the first parameter and one column per
    value of the second, and the cell [(i, j)] holds the likelihood of
    [[vec_param_i[i], vec_param_j[j]]]; no cell keeps the zero it was
    allocated with unless the likelihood is zero there. *)
Theorem screening_fills_the_table (vec_param_i vec_param_j : list F) :
  ∃ f_post,
    screening sigma_y x_data y_noisy vec_param_i vec_param_j = Some f_post
    ∧ length f_post = length vec_param_i
    ∧ Forall (λ row : list F, length row = length vec_param_j) f_post
    ∧ ∀ (i j : nat) (param_i param_j : F),
        vec_param_i !! i = Some param_i → vec_param_j !! j = Some param_j →
        (f_post !! i ≫= (.!! j)) = fun_LL sigma_y x_data y_noisy [param_i; param_j].
Proof using observations_shape.
  unfold screening, np_ndenumerate. rewrite screen_rows_fills.
  - rewrite take_0. cbn [app]. eexists. split; [done|]. split; [apply length_fmap|]. split.
    + apply Forall_fmap, Forall_forall. intros p _. apply length_fmap.
    + intros i j param_i param_j Hi Hj.
      rewrite list_lookup_fmap, Hi. simpl.
      etrans; [apply (list_lookup_fmap (value_at param_i) vec_param_j j)|].
      rewrite Hj. by rewrite fun_LL_two.
  - unfold np_zeros2. rewrite length_replicate. lia.
  - apply Forall_replicate. apply length_replicate.
Qed.
End ScreeningLoop.

(** ** The further properties at concrete inputs *)

Module Instances.

Lemma nan_likelihood_accepts_instance :
  mh_alpha S754_nan Demo.half = B64.one.
Proof.
  destruct (FloatAcceptance.nan_likelihood_accepts S754_nan Demo.half)
    as (_ & Halpha & _); [left; reflexivity|exact Halpha].
Defined.

Lemma positive_likelihood_kept_instance :
  B64.strictly_positive
    (if mh_accepts Demo.quarter Demo.half Demo.quarter then Demo.quarter else Demo.half).
Proof.
  apply FloatAcceptance.positive_likelihood_kept;
    [exact I|reflexivity|discriminate|split; reflexivity].
Defined.

Lemma factor_shape :
  length Demo.factor = dim
  ∧ Forall (λ row : list B64.float, length row = dim) Demo.factor.
Proof. split; [reflexivity|]. repeat constructor. Qed.

Lemma chain_shape : Forall (λ row : list B64.float, length row = dim) Demo.chain.
Proof. repeat constructor. Qed.

Lemma loop_writes_its_rows_instance :
  ∃ w_n' g',
    mh_loop (H0 := Demo.elementary) Demo.source (lit 15 10) [of_int 0; of_int 1]
      [of_int 1; of_int 2] Demo.factor (seq 0 2) (Demo.chain, Demo.seed)
    = Some (w_n', g')
    ∧ length w_n' = 4
    ∧ w_n' !! 0 = Some Demo.w_cur ∧ w_n' !! 3 = Some (np_zeros dim).
Proof.
  destruct factor_shape as [HR Hrows].
  destruct (mh_loop_spec (H0 := Demo.elementary) Demo.source (lit 15 10)
              [of_int 0; of_int 1] [of_int 1; of_int 2] Demo.factor 2 0 Demo.chain
              Demo.seed eq_refl HR Hrows chain_shape)
    as (w_n' & g' & Hrun & _); [simpl; lia|].
  destruct (loop_writes_its_rows (H0 := Demo.elementary) Demo.source (lit 15 10)
              [of_int 0; of_int 1] [of_int 1; of_int 2] _ 2 0 _ _ w_n' g' Hrun)
    as [Hlen Hframe].
  exists w_n', g'. split; [exact Hrun|]. split; [exact Hlen|]. split.
  - apply (Hframe 0). left. lia.
  - apply (Hframe 3). right. lia.
Defined.

Lemma longer_run_extends_shorter_instance :
  ∃ w_k g_k w_n g_n,
    mcmc (H0 := Demo.elementary) Demo.source (lit 15 10) [of_int 0; of_int 1]
      [of_int 1; of_int 2] 2 Demo.w_cur Demo.seed = Some (w_k, g_k)
    ∧ mcmc (H0 := Demo.elementary) Demo.source (lit 15 10) [of_int 0; of_int 1]
        [of_int 1; of_int 2] 5 Demo.w_cur Demo.seed = Some (w_n, g_n)
    ∧ ∀ i, i ≤ 2 → w_n !! i = w_k !! i.
Proof.
  destruct (longer_run_extends_shorter (H0 := Demo.elementary) Demo.source (lit 15 10)
              [of_int 0; of_int 1] [of_int 1; of_int 2] 2 5 Demo.w_cur Demo.seed _
              ltac:(lia) eq_refl eq_refl Checks.cholesky_proposal_cov_b64)
    as (w_k & g_k & w_n & g_n & Hk & Hn & _ & _ & Hagree).
  exists w_k, g_k, w_n, g_n. split; [exact Hk|]. split; [exact Hn|exact Hagree].
Defined.

Lemma loop_consumes_three_per_iteration_instance :
  ∃ w_n' g',
    mh_loop (H0 := Demo.elementary) Demo.source (lit 15 10) [of_int 0; of_int 1]
      [of_int 1; of_int 2] Demo.factor (seq 0 2) (Demo.chain, Demo.seed)
    = Some (w_n', g')
    ∧ g' = {| consumed := 6; gauss_next := None |}.
Proof.
  destruct factor_shape as [HR Hrows].
  destruct (mh_loop_spec (H0 := Demo.elementary) Demo.source (lit 15 10)
              [of_int 0; of_int 1] [of_int 1; of_int 2] Demo.factor 2 0 Demo.chain
              Demo.seed eq_refl HR Hrows chain_shape)
    as (w_n' & g' & Hrun & _); [simpl; lia|].
  exists w_n', g'. split; [exact Hrun|].
  exact (loop_consumes_three_per_iteration (H0 := Demo.elementary) Demo.raw
           Demo.box_muller (lit 15 10) [of_int 0; of_int 1] [of_int 1; of_int 2] _ 2 0 0
           _ w_n' g' Hrun).
Defined.

Lemma screening_fills_the_table_instance :
  ∃ f_post,
    screening (H0 := Demo.elementary) (lit 15 10) [of_int 0; of_int 1]
      [of_int 1; of_int 2] [of_int 4; of_int 5; of_int 6] [of_int 3; lit 31 10]
    = Some f_post
    ∧ length f_post = 3.
Proof.
  destruct (screening_fills_the_table (H0 := Demo.elementary) (lit 15 10)
              [of_int 0; of_int 1] [of_int 1; of_int 2] eq_refl
              [of_int 4; of_int 5; of_int 6] [of_int 3; lit 31 10])
    as (f_post & Hrun & Hlen & _).
  exists f_post. split; [exact Hrun|exact Hlen].
Defined.
End Instances.
